(** * The measure library: records, scopes, databases and reports

    A shallow embedding of [measure_base.h], [measure_utils.h] and
    [csv_reporter.h] (namespace [dtree]), in the default configuration
    [MEASURE_IS_ON = 1] that [measure_utils.h] selects.

    - Integers keep the width the source declares.  [numCall] is a
      [uint64_t]: its increment wraps modulo [2^64].  [depth] is an
      [int32_t]: incrementing it past [INT32_MAX] (or decrementing it below
      [INT32_MIN]) is a signed overflow, which the language leaves undefined;
      the operations that do it return [None] there.
    - [double] is the kernel's binary64 [float].
    - The clock is an oracle: [GetTick k] is the value that the [k]-th read
      of the backend's clock returns in the execution at hand, and the state
      counts the reads made so far.
    - Records live in a heap and are named by their address; the databases
      hold addresses, as the source holds pointers. *)

From Stdlib Require Import ZArith List Ascii String Floats Lia Bool.
From stdpp Require Import base option list gmap strings pretty.

Local Open Scope Z_scope.

(** ** Machine integers *)

Definition wrap_u64 (z : Z) : Z := z mod 2 ^ 64.
Definition wrap_i64 (z : Z) : Z := (z + 2 ^ 63) mod 2 ^ 64 - 2 ^ 63.

Definition INT32_MAX : Z := 2147483647.
Definition INT32_MIN : Z := -2147483648.

(** [double(z)] for an integer [z]: the nearest binary64 value, ties to even. *)
Definition Z2double (z : Z) : float := SF2Prim (binary_normalize prec emax z 0 false).

(** ** MeasureBackend: the clock concept

    The source has no base class for backends, only the shape that
    [CppBackend], [RdtscBackend], [QPCBackend] and the do-nothing
    [MeasureBackend] share; [tick_sub], [diff_add] and [diff_zero] are the
    [operator-], [operator+=] and zero value of the tick types that
    [TMeasureRecord] derives with [decltype]. *)
Class MeasureBackend := {
  TimePoint : Type;
  TimeDiff : Type;
  GetMeasureTitle : string;
  GetTick : nat -> TimePoint;
  TimeDiffToSec : TimeDiff -> float;
  tick_sub : TimePoint -> TimePoint -> TimeDiff;
  diff_add : TimeDiff -> TimeDiff -> TimeDiff;
  diff_zero : TimeDiff
}.

(** [struct MeasureBackend] of [measure_base.h], the backend whose clock
    always reads 0 ([int64_t] ticks, a nominal frequency of 3.2 GHz). *)
#[export] Instance DummyMeasureBackend : MeasureBackend := {|
  TimePoint := Z;
  TimeDiff := Z;
  GetMeasureTitle := "VeryPreciseMeasure";
  GetTick := fun _ => 0;
  TimeDiffToSec := fun time => (Z2double time / Z2double 3200000000)%float;
  tick_sub := fun a b => wrap_i64 (a - b);
  diff_add := fun a b => wrap_i64 (a + b);
  diff_zero := 0
|}.

(** ** TMeasureRecord and its recursion-safe decorator *)

Record TMeasureRecord `{MeasureBackend} := {
  name : string;
  totalTime : TimeDiff;
  numCall : Z
}.

(** The member initialisers of the constructor; the registration that its
    body performs is [construct], below, where the database is in scope. *)
Definition TMeasureRecord_init `{MeasureBackend} (n : string) : TMeasureRecord :=
  {| name := n; totalTime := diff_zero; numCall := 0 |}.

(** A record under measurement, with the number of clock reads made so far. *)
Record state (R : Type) := { rec : R; reads : nat }.
Arguments rec {R} _.
Arguments reads {R} _.

Section Measure.
Context `{B : MeasureBackend}.

Definition Now {R : Type} (s : state R) : TimePoint * state R :=
  (GetTick (reads s), {| rec := rec s; reads := S (reads s) |}).

Definition StopMeasure (start : TimePoint) (s : state TMeasureRecord)
  : state TMeasureRecord :=
  let r := rec s in
  {| rec := {| name := name r;
               totalTime := diff_add (totalTime r) (tick_sub (GetTick (reads s)) start);
               numCall := wrap_u64 (numCall r + 1) |};
     reads := S (reads s) |}.

Definition GetTotalSec (r : TMeasureRecord) : float := TimeDiffToSec (totalTime r).

(** [MeasureRecordRSafe<MeasureRecord>]: the base record and a depth. *)
Record MeasureRecordRSafe := { base : TMeasureRecord; depth : Z }.

Definition MeasureRecordRSafe_init (n : string) : MeasureRecordRSafe :=
  {| base := TMeasureRecord_init n; depth := 0 |}.

Definition IncrementDepth (r : MeasureRecordRSafe) : option (bool * MeasureRecordRSafe) :=
  if depth r =? INT32_MAX then None
  else let d := depth r + 1 in Some (d =? 1, {| base := base r; depth := d |}).

Definition DecrementDepth (r : MeasureRecordRSafe) : option (bool * MeasureRecordRSafe) :=
  if depth r =? INT32_MIN then None
  else let d := depth r - 1 in Some (d =? 0, {| base := base r; depth := d |}).

Definition GetDepth (r : MeasureRecordRSafe) : Z := depth r.

(** The inherited [Now] is the generic one; the inherited [StopMeasure]
    acts on the base part and leaves the depth alone. *)
Definition StopMeasureRSafe (start : TimePoint) (s : state MeasureRecordRSafe)
  : state MeasureRecordRSafe :=
  let s' := StopMeasure start {| rec := base (rec s); reads := reads s |} in
  {| rec := {| base := rec s'; depth := depth (rec s) |}; reads := reads s' |}.

(** ** Scopes

    A scope object keeps the captured start tick; its [record] pointer is
    the record of the state it runs in. *)

Record TMeasureScope := { start : TimePoint }.

Definition TMeasureScope_ctor (s : state TMeasureRecord)
  : TMeasureScope * state TMeasureRecord :=
  let '(t, s') := Now s in ({| start := t |}, s').

Definition TMeasureScope_dtor (sc : TMeasureScope) (s : state TMeasureRecord)
  : state TMeasureRecord :=
  StopMeasure (start sc) s.

(** [MeasureScopeRSafe]: [start] is assigned only when [IncrementDepth]
    answers true, and is indeterminate ([None]) otherwise; the destructor
    reads it only when [DecrementDepth] answers true, and reading an
    indeterminate value is undefined. *)
Record MeasureScopeRSafe := { rs_start : option TimePoint }.

Definition MeasureScopeRSafe_ctor (s : state MeasureRecordRSafe)
  : option (MeasureScopeRSafe * state MeasureRecordRSafe) :=
  '(outermost, r) ← IncrementDepth (rec s);
  let s1 := {| rec := r; reads := reads s |} in
  if outermost : bool
  then let '(t, s2) := Now s1 in Some ({| rs_start := Some t |}, s2)
  else Some ({| rs_start := None |}, s1).

Definition MeasureScopeRSafe_dtor (sc : MeasureScopeRSafe) (s : state MeasureRecordRSafe)
  : option (state MeasureRecordRSafe) :=
  '(outermost, r) ← DecrementDepth (rec s);
  let s1 := {| rec := r; reads := reads s |} in
  if outermost : bool
  then t ← rs_start sc; Some (StopMeasureRSafe t s1)
  else Some s1.

(** ** Programs that use the scopes *)

(** [N] measured regions one after the other, each bracketed by a plain
    scope on the same record (the loop of [CppTest], the body of [MEASURE]). *)
Fixpoint successive_scopes (N : nat) (s : state TMeasureRecord) : state TMeasureRecord :=
  match N with
  | O => s
  | S n => let '(sc, s1) := TMeasureScope_ctor s in
           successive_scopes n (TMeasureScope_dtor sc s1)
  end.

(** The elapsed delta of a start/stop pair whose start is clock read [k]. *)
Definition delta (k : nat) : TimeDiff := tick_sub (GetTick (S k)) (GetTick k).

(** The deltas of [N] successive pairs, the first of which starts at read [k]. *)
Definition deltas (k N : nat) : list TimeDiff :=
  map (fun i => delta (k + 2 * i)%nat) (seq 0 N).

(** Arbitrarily nested uses of one recursion-safe record: [Done] is code
    that does not touch the record, [Scoped inner rest] is a region
    [{ MeasureScopeRSafe scope(&record); inner }] followed by [rest].  The
    regions met along [rest] from the root are the top-level invocations;
    those inside [inner] are the nested (recursive) ones. *)
Inductive calls := Done | Scoped (inner rest : calls).

Fixpoint run_calls (c : calls) (s : state MeasureRecordRSafe)
  : option (state MeasureRecordRSafe) :=
  match c with
  | Done => Some s
  | Scoped inner rest =>
      '(sc, s1) ← MeasureScopeRSafe_ctor s;
      s2 ← run_calls inner s1;
      s3 ← MeasureScopeRSafe_dtor sc s2;
      run_calls rest s3
  end.

(** The deepest nesting of scopes in [c], and its number of top-level
    invocations. *)
Fixpoint nesting (c : calls) : nat :=
  match c with
  | Done => O
  | Scoped inner rest => Nat.max (S (nesting inner)) (nesting rest)
  end.

Fixpoint invocations (c : calls) : nat :=
  match c with
  | Done => O
  | Scoped _ rest => S (invocations rest)
  end.

(** [RecursiveFunction(level)] of [measure_samples.cpp], reduced to its
    recursion-safe scope: one invocation of nesting depth [level + 1]. *)
Fixpoint RecursiveFunction (level : nat) : calls :=
  Scoped (match level with O => Done | S l => RecursiveFunction l end) Done.

(** A plain record state seen as a recursion-safe one at depth [d], and
    the plain part of a recursion-safe state. *)
Definition with_depth (d : Z) (s : state TMeasureRecord) : state MeasureRecordRSafe :=
  {| rec := {| base := rec s; depth := d |}; reads := reads s |}.

Definition base_state (s : state MeasureRecordRSafe) : state TMeasureRecord :=
  {| rec := base (rec s); reads := reads s |}.

(** Sequences of depth operations on one record; [depth_run] keeps, for
    every operation, its answer and the value of [GetDepth] after it. *)
Inductive depth_op := Inc | Dec.

Definition depth_step (o : depth_op) (r : MeasureRecordRSafe)
  : option (bool * MeasureRecordRSafe) :=
  match o with
  | Inc => IncrementDepth r
  | Dec => DecrementDepth r
  end.

Fixpoint depth_run (ops : list depth_op) (r : MeasureRecordRSafe)
  : option (list (bool * Z) * MeasureRecordRSafe) :=
  match ops with
  | [] => Some ([], r)
  | o :: ops' =>
      '(b, r1) ← depth_step o r;
      '(tr, r2) ← depth_run ops' r1;
      Some ((b, GetDepth r1) :: tr, r2)
  end.

(** Scope discipline: with [open] increments still unmatched, every
    decrement of [ops] matches an earlier unmatched increment. *)
Fixpoint nested (open : nat) (ops : list depth_op) : bool :=
  match ops with
  | [] => true
  | Inc :: ops' => nested (S open) ops'
  | Dec :: ops' => match open with O => false | S n => nested n ops' end
  end.

(** The largest number of unmatched increments reached along [ops]. *)
Fixpoint peak (open : nat) (ops : list depth_op) : nat :=
  match ops with
  | [] => open
  | Inc :: ops' => Nat.max open (peak (S open) ops')
  | Dec :: ops' => Nat.max open (peak (Nat.pred open) ops')
  end.

End Measure.

(** ** The databases

    [heap] holds the [TMeasureRecord] part of every record constructed so
    far, whichever policy decorates it; the address of a record is its
    index, and records are never destroyed before the process ends.
    [records] is [MeasureDatabase::records], [dynamicRecords] is
    [DynamicMeasureDatabase::dynamicRecords] (the owning [unique_ptr] is the
    address), and [log] is the history of the operations on the two mutexes
    and of the accesses to the registered records they are meant to guard. *)

Abbreviation addr := nat.

Inductive mutex := DatabaseMutex | DynamicDatabaseMutex.

Inductive event :=
| Acquire (m : mutex)
| Release (m : mutex)
| PushBack (a : addr)
| Visit (a : addr)
| Reset (a : addr).

Record World `{MeasureBackend} := {
  heap : list TMeasureRecord;
  records : list addr;
  dynamicRecords : gmap string addr;
  log : list event
}.

(** ** Output streams

    What is inserted in a stream, in order: the [operator<<] overloads and
    the manipulators that the reports use. *)
Inductive item :=
| Str (s : string)
| UInt (n : Z)
| Double (x : float)
| Setw (n : nat)
| Fixed
| Endl.

(** A division [dividend / double(divisor)] that a report evaluated. *)
Record division := { dividend : float; divisor : Z }.

Record report := { out : list item; divisions : list division }.

Definition report_app (a b : report) : report :=
  {| out := out a ++ out b; divisions := divisions a ++ divisions b |}.

Definition write (l : list item) : report := {| out := l; divisions := [] |}.

Definition nl : string := String (ascii_of_nat 10) EmptyString.

(** The characters a stream shows for a list of insertions.  [setw] pads
    the next formatted insertion on the left and is then forgotten; [fixed]
    stays.  [show_double] is the standard library's rendering of a [double],
    given whether [fixed] is set. *)
Definition pad_left (w : nat) (s : string) : string :=
  String.concat "" (repeat " "%string (w - String.length s)%nat) +:+ s.

Fixpoint render (show_double : bool -> float -> string) (w : nat) (fx : bool)
  (l : list item) : string :=
  match l with
  | [] => ""
  | Str s :: l' => pad_left w s +:+ render show_double O fx l'
  | UInt n :: l' => pad_left w (pretty (Z.to_N n)) +:+ render show_double O fx l'
  | Double x :: l' => pad_left w (show_double fx x) +:+ render show_double O fx l'
  | Setw n :: l' => render show_double n fx l'
  | Fixed :: l' => render show_double w true l'
  | Endl :: l' => nl +:+ render show_double w fx l'
  end.

(** ** MeasureUtils *)

(** [uint64_t(x)]: truncation toward zero.  The language defines it only
    when the truncated value fits; elsewhere this is 0 for negative values,
    infinities and NaN, and the value modulo [2^64] for large ones. *)
Definition uint64_of_double (x : float) : Z :=
  match Prim2SF x with
  | S754_finite false m e =>
      wrap_u64 (if 0 <=? e then Z.pos m * 2 ^ e else Z.pos m / 2 ^ (- e))
  | _ => 0
  end.

(** [s.insert(n, 1, c)] *)
Definition string_insert (n : nat) (c : ascii) (s : string) : string :=
  substring 0 n s +:+ String c (substring n (String.length s - n) s).

(** The loop of [FormatWithSeparator]; [fuel] bounds its iterations. *)
Fixpoint insert_separators (fuel : nat) (n : Z) (separator : ascii) (s : string) : string :=
  match fuel with
  | O => s
  | S fuel' =>
      if 0 <? n
      then insert_separators fuel' (n - 3) separator (string_insert (Z.to_nat n) separator s)
      else s
  end.

Definition FormatWithSeparator (num : Z) (separator : ascii) : string :=
  let s : string := pretty (Z.to_N num) in
  let n := Z.of_nat (String.length s) - 3 in
  insert_separators (String.length s) n separator s.

Definition TimeToStrNs (sec : float) : string :=
  FormatWithSeparator (uint64_of_double (sec * 1e9)%float) "'"%char.

(** ** MeasureDatabase and DynamicMeasureDatabase *)

Section Database.
Context `{B : MeasureBackend}.

Definition empty_world : World :=
  {| heap := []; records := []; dynamicRecords := ∅; log := [] |}.

Definition set_heap (h : list TMeasureRecord) (w : World) : World :=
  {| heap := h; records := records w; dynamicRecords := dynamicRecords w; log := log w |}.

Definition set_records (rs : list addr) (w : World) : World :=
  {| heap := heap w; records := rs; dynamicRecords := dynamicRecords w; log := log w |}.

Definition set_dynamicRecords (d : gmap string addr) (w : World) : World :=
  {| heap := heap w; records := records w; dynamicRecords := d; log := log w |}.

Definition emit (e : event) (w : World) : World :=
  {| heap := heap w; records := records w; dynamicRecords := dynamicRecords w;
     log := log w ++ [e] |}.

(** [const std::lock_guard<std::mutex> lock(m);] in front of [body]: the
    mutex is taken, the rest of the block runs, the mutex is given back. *)
Definition lock_guard {A : Type} (m : mutex) (body : World -> A * World) (w : World)
  : A * World :=
  let '(x, w') := body (emit (Acquire m) w) in (x, emit (Release m) w').

Definition AddRecord (record : addr) (w : World) : World :=
  snd (lock_guard DatabaseMutex
         (fun w => (tt, emit (PushBack record) (set_records (records w ++ [record]) w))) w).

(** [TMeasureRecord(name, autoRegister)] run on fresh storage; the result
    is [this]. *)
Definition construct (n : string) (autoRegister : bool) (w : World) : addr * World :=
  let this := length (heap w) in
  let w1 := set_heap (heap w ++ [TMeasureRecord_init n]) w in
  (this, if autoRegister then AddRecord this w1 else w1).

(** [mr->name == name] *)
Definition name_is (h : list TMeasureRecord) (n : string) (mr : addr) : bool :=
  match h !! mr with
  | Some r => String.eqb (name r) n
  | None => false
  end.

Fixpoint find_record (h : list TMeasureRecord) (n : string) (rs : list addr) : option addr :=
  match rs with
  | [] => None
  | mr :: rs' => if name_is h n mr then Some mr else find_record h n rs'
  end.

(** The result is [None] for [nullptr]. *)
Definition FindMeasureRecord (n : string) (w : World) : option addr :=
  find_record (heap w) n (records w).

Definition reset_counters (r : TMeasureRecord) : TMeasureRecord :=
  {| name := name r; totalTime := diff_zero; numCall := 0 |}.

(** One pass of the loop of [ResetAll], on the record at [mr]. *)
Definition reset_step (w : World) (mr : addr) : World :=
  emit (Reset mr) (set_heap (alter reset_counters mr (heap w)) w).

Definition ResetAll (w : World) : World := fold_left reset_step (records w) w.

Definition GetOrAddDynamicRecord (n : string) (w : World) : addr * World :=
  lock_guard DynamicDatabaseMutex
    (fun w =>
       match dynamicRecords w !! n with
       | Some a => (a, w)
       | None =>
           let '(a, w1) := construct n true w in
           (a, set_dynamicRecords (<[n := a]> (dynamicRecords w1)) w1)
       end) w.

(** Calls of [GetOrAddDynamicRecord] one after the other, with their results. *)
Fixpoint GetOrAddDynamicRecords (ns : list string) (w : World) : list addr * World :=
  match ns with
  | [] => ([], w)
  | n :: ns' =>
      let '(a, w1) := GetOrAddDynamicRecord n w in
      let '(l, w2) := GetOrAddDynamicRecords ns' w1 in
      (a :: l, w2)
  end.

(** *** PrintReport *)

Definition dashes (n : Z) : string := String.concat "" (repeat "-"%string (Z.to_nat n)).

(** One pass of the loop of [PrintReport]. *)
Definition PrintReport_row (measureRecord : TMeasureRecord) : report :=
  let totalSec := GetTotalSec measureRecord in
  if (totalSec <? 0)%float || (numCall measureRecord =? 0)
  then write [Setw 40; Str (name measureRecord);
              Setw 12; UInt (numCall measureRecord);
              Str nl]
  else {| out := [Setw 40; Str (name measureRecord);
                  Setw 12; UInt (numCall measureRecord);
                  Setw 17; Str (TimeToStrNs totalSec);
                  Setw 17; Str (TimeToStrNs (totalSec / Z2double (numCall measureRecord))%float);
                  Str nl];
          divisions := [{| dividend := totalSec; divisor := numCall measureRecord |}] |}.

(** A loop over the registered records that runs [row] on each and leaves a
    [Visit] in the log; an address with no record behind it (none arises,
    records are not destroyed) contributes nothing. *)
Fixpoint for_records (row : TMeasureRecord -> report) (rs : list addr) (w : World)
  : report * World :=
  match rs with
  | [] => (write [], w)
  | mr :: rs' =>
      let w1 := emit (Visit mr) w in
      let r := match heap w !! mr with Some x => row x | None => write [] end in
      let '(rest, w2) := for_records row rs' w1 in
      (report_app r rest, w2)
  end.

(** What [PrintReport] writes before the rows: the title banner, the
    column headers and a rule.  [width - titleLen] is [size_t] arithmetic. *)
Definition PrintReport_head : list item :=
  let width := 86 in
  let title := GetMeasureTitle in
  let titleLen := Z.of_nat (String.length title) in
  let pad := dashes (wrap_u64 (wrap_u64 (width - titleLen) / 2 - 1)) in
  [Str pad; Str " "; Str title; Str " "; Str pad;
   Str (if titleLen mod 2 =? 0 then "" else "-"); Str nl;
   Setw 40; Str "Name"; Setw 12; Str "Calls";
   Setw 17; Str "Total (ns)"; Setw 17; Str "Average (ns)"; Str nl;
   Str (dashes 86); Endl].

(** The parameter [frequencyMeasureTimeSeconds] of the source is not used
    by its body and is left out. *)
Definition PrintReport (w : World) : report * World :=
  match records w with
  | [] => (write [], w)
  | _ :: _ =>
      let '(rows, w') := for_records PrintReport_row (records w) w in
      (report_app (write PrintReport_head)
                  (report_app rows (write [Str (dashes 86); Endl])), w')
  end.

(** *** CsvReport *)

(** Modelled from the spec: [Database::GetMutex] and [Database::GetRecords],
    which [CsvReport] calls, are not members of [MeasureDatabase] in the
    sources at hand.  The spec gives the reporter read access to the
    Database's ordered record sequence, under the Database's lock: they
    are the mutex and the record sequence of the database. *)
Definition GetMutex : mutex := DatabaseMutex.
Definition GetRecords (w : World) : list addr := records w.

(** One pass of the loop of [CsvReport]. *)
Definition CsvReport_row (measureRecord : TMeasureRecord) : report :=
  let totalSec := GetTotalSec measureRecord in
  if (totalSec <? 0)%float || (numCall measureRecord =? 0)
  then write [Str (name measureRecord); Str ",";
              UInt (numCall measureRecord); Str ",";
              Str ("," +:+ nl)]
  else {| out := [Str (name measureRecord); Str ",";
                  UInt (numCall measureRecord); Str ",";
                  Fixed; Double (totalSec * 1e9)%float; Str ",";
                  Fixed; Double (totalSec * 1e9 / Z2double (numCall measureRecord))%float;
                  Str nl];
          divisions := [{| dividend := (totalSec * 1e9)%float;
                           divisor := numCall measureRecord |}] |}.

Definition CsvReport (w : World) : report * World :=
  lock_guard GetMutex
    (fun w =>
       match GetRecords w with
       | [] => (write [], w)
       | _ :: _ =>
           let '(rows, w') := for_records CsvReport_row (GetRecords w) w in
           (report_app (write [Str ("name,num_calls,total_ns,average_ns" +:+ nl)]) rows, w')
       end) w.

(** *** The state invariant

    Registered and owned addresses are addresses of constructed records,
    and the dynamic database owns a different record under each name. *)
Definition wf (w : World) : Prop :=
  (∀ a : addr, a ∈ records w → (a < length (heap w))%nat) ∧
  (∀ (n : string) (a : addr), dynamicRecords w !! n = Some a → (a < length (heap w))%nat) ∧
  (∀ (n1 n2 : string) (a : addr),
      dynamicRecords w !! n1 = Some a → dynamicRecords w !! n2 = Some a → n1 = n2).

(** *** The reading of the report rows in the words of the spec

    A row has "no data" when the call count is zero or the total is
    non-positive. *)
Definition spec_no_data (r : TMeasureRecord) : bool :=
  (numCall r =? 0) || (GetTotalSec r <=? 0)%float.

(** The number of [setw] fields of a text row, and of [double] fields of a
    CSV row. *)
Definition setw_fields (l : list item) : nat :=
  length (List.filter (fun i => match i with Setw _ => true | _ => false end) l).

Definition double_fields (l : list item) : nat :=
  length (List.filter (fun i => match i with Double _ => true | _ => false end) l).

End Database.

(** ** More of the library *)

(** [RdtscBackend] of [rdtsc_measure.h]: the ticks are the 64-bit
    time-stamp counter, and so is their difference ([uint64_t] both).
    [cycles k] is the number of cycles the processor has counted at the
    [k]-th read, of which [__rdtsc()] returns the low 64 bits; [freq] is
    the value of [GetProcessorFrequency()], measured once per process. *)
Definition RdtscBackend (cycles : nat -> Z) (freq : Z) : MeasureBackend := {|
  TimePoint := Z;
  TimeDiff := Z;
  GetMeasureTitle := "rdtsc times";
  GetTick := fun k => wrap_u64 (cycles k);
  TimeDiffToSec := fun time => (Z2double time / Z2double freq)%float;
  tick_sub := fun a b => wrap_u64 (a - b);
  diff_add := fun a b => wrap_u64 (a + b);
  diff_zero := 0
|}.

Section Misuse.
Context `{B : MeasureBackend}.

(** Plain scopes on one record nested as [c] says: what [rec1] and [rec3]
    of [RecursiveFunction] do, which the sample marks as not recursion
    safe. *)
Fixpoint run_calls_plain (c : calls) (s : state TMeasureRecord) : state TMeasureRecord :=
  match c with
  | Done => s
  | Scoped inner rest =>
      let '(sc, s1) := TMeasureScope_ctor s in
      let s2 := run_calls_plain inner s1 in
      let s3 := TMeasureScope_dtor sc s2 in
      run_calls_plain rest s3
  end.

(** The number of scopes in [c], nested ones included. *)
Fixpoint scopes (c : calls) : nat :=
  match c with
  | Done => O
  | Scoped inner rest => S (scopes inner + scopes rest)
  end.

End Misuse.

(** *** MeasureRecordTRSafe

    [Depth()] keeps the depths in a [thread_local] map whose keys pair the
    thread with the record; [depths] is the maps of all threads together.
    [operator[]] enters a missing key with depth 0.  The mutex is the
    record's own, inherited from [MeassureRecordTSafe]. *)
Abbreviation thread := nat.

Inductive record_event := LockRecord (a : addr) | UnlockRecord (a : addr).

Record TRState := {
  depths : gmap (thread * addr) Z;
  record_log : list record_event
}.

Definition record_emit (e : record_event) (st : TRState) : TRState :=
  {| depths := depths st; record_log := record_log st ++ [e] |}.

(** [Depth()] on thread [t] for the record at [this]: the value behind the
    reference it returns, and the map with the key present. *)
Definition Depth (t : thread) (this : addr) (st : TRState) : Z * TRState :=
  let d := default 0 (depths st !! (t, this)) in
  (d, {| depths := <[(t, this) := d]> (depths st); record_log := record_log st |}).

Definition set_Depth (t : thread) (this : addr) (d : Z) (st : TRState) : TRState :=
  {| depths := <[(t, this) := d]> (depths st); record_log := record_log st |}.

Definition IncrementDepthTR (t : thread) (this : addr) (st : TRState)
  : option (bool * TRState) :=
  let '(d, st1) := Depth t this (record_emit (LockRecord this) st) in
  if d =? INT32_MAX then None
  else Some (d + 1 =? 1, record_emit (UnlockRecord this) (set_Depth t this (d + 1) st1)).

Definition DecrementDepthTR (t : thread) (this : addr) (st : TRState)
  : option (bool * TRState) :=
  let '(d, st1) := Depth t this (record_emit (LockRecord this) st) in
  if d =? INT32_MIN then None
  else Some (d - 1 =? 0, record_emit (UnlockRecord this) (set_Depth t this (d - 1) st1)).

Definition depth_step_TR (t : thread) (this : addr) (o : depth_op) (st : TRState)
  : option (bool * TRState) :=
  match o with
  | Inc => IncrementDepthTR t this st
  | Dec => DecrementDepthTR t this st
  end.

(** Depth operations of several threads on several records, in the order
    in which they take place; the trace keeps, for each, who made it, its
    answer and the depth it left. *)
Fixpoint depth_run_TR (ops : list (thread * addr * depth_op)) (st : TRState)
  : option (list (thread * addr * (bool * Z)) * TRState) :=
  match ops with
  | [] => Some ([], st)
  | (key, o) :: ops' =>
      '(b, st1) ← depth_step_TR key.1 key.2 o st;
      '(tr, st2) ← depth_run_TR ops' st1;
      Some ((key, (b, default 0 (depths st1 !! key))) :: tr, st2)
  end.

(** What belongs to [key] in a list of tagged entries. *)
Definition own {X : Type} (key : thread * addr) (l : list (thread * addr * X)) : list X :=
  map snd (List.filter (fun x => bool_decide (fst x = key)) l).

(** *** Strings of digits *)

Definition join (l : list string) : string := fold_right String.append EmptyString l.

Fixpoint strip (c : ascii) (s : string) : string :=
  match s with
  | EmptyString => EmptyString
  | String x s' => if Ascii.eqb x c then strip c s' else String x (strip c s')
  end.

Definition is_digit (c : ascii) : bool :=
  (48 <=? nat_of_ascii c)%nat && (nat_of_ascii c <=? 57)%nat.

Fixpoint all_digits (s : string) : bool :=
  match s with
  | EmptyString => true
  | String x s' => is_digit x && all_digits s'
  end.

Section MoreDatabase.
Context `{B : MeasureBackend}.

(** [N] plain scopes, one after the other, on the record that [record]
    points to, from clock read [k] on; there is no result when no record
    lives there. *)
Definition scopes_at (record : addr) (N : nat) (k : nat) (w : World) : option (World * nat) :=
  r ← heap w !! record;
  let s := successive_scopes N {| rec := r; reads := k |} in
  Some (set_heap (<[record := rec s]> (heap w)) w, reads s).


End MoreDatabase.

(** * Properties *)

(** ** Machine integers *)

Lemma wrap_u64_small (z : Z) : 0 <= z < 2 ^ 64 -> wrap_u64 z = z.
Proof. intros Hz. unfold wrap_u64. apply Z.mod_small. exact Hz. Qed.

Lemma wrap_u64_succ (c n : Z) : wrap_u64 (wrap_u64 (c + 1) + n) = wrap_u64 (c + (n + 1)).
Proof.
  unfold wrap_u64. rewrite Zplus_mod_idemp_l. f_equal. lia.
Qed.

(** The example in the comment of [FormatWithSeparator]. *)
Example FormatWithSeparator_example :
  FormatWithSeparator 12345678 "'"%char = "12'345'678"%string /\
  FormatWithSeparator 999 "'"%char = "999"%string /\
  TimeToStrNs 1.5%float = "1'500'000'000"%string.
Proof. vm_compute. repeat split. Qed.

(** ** Plain records and scopes *)

Section MeasureFacts.
Context `{B : MeasureBackend}.

Lemma scope_pair (s : state TMeasureRecord) :
  (let '(sc, s1) := TMeasureScope_ctor s in TMeasureScope_dtor sc s1) =
  {| rec := {| name := name (rec s);
               totalTime := diff_add (totalTime (rec s)) (delta (reads s));
               numCall := wrap_u64 (numCall (rec s) + 1) |};
     reads := S (S (reads s)) |}.
Proof. reflexivity. Qed.

Lemma deltas_S (k N : nat) : deltas k (S N) = delta k :: deltas (S (S k)) N.
Proof.
  unfold deltas. cbn [seq map]. f_equal.
  - f_equal. lia.
  - rewrite <- seq_shift, map_map. apply map_ext. intros i. f_equal. lia.
Qed.

Lemma successive_scopes_S (N : nat) (s : state TMeasureRecord) :
  successive_scopes (S N) s =
  successive_scopes N
    {| rec := {| name := name (rec s);
                 totalTime := diff_add (totalTime (rec s)) (delta (reads s));
                 numCall := wrap_u64 (numCall (rec s) + 1) |};
       reads := S (S (reads s)) |}.
Proof. reflexivity. Qed.

(** What [N] successive start/stop pairs do to any record. *)
Lemma successive_scopes_spec (N : nat) :
  forall s : state TMeasureRecord,
    name (rec (successive_scopes N s)) = name (rec s) /\
    totalTime (rec (successive_scopes N s)) =
      fold_left diff_add (deltas (reads s) N) (totalTime (rec s)) /\
    reads (successive_scopes N s) = (reads s + 2 * N)%nat /\
    (N <> O -> numCall (rec (successive_scopes N s)) =
               wrap_u64 (numCall (rec s) + Z.of_nat N)).
Proof.
  induction N as [|N IH]; intros s.
  - cbn. repeat split; [lia | congruence].
  - rewrite successive_scopes_S.
    destruct (IH {| rec := {| name := name (rec s);
                              totalTime := diff_add (totalTime (rec s)) (delta (reads s));
                              numCall := wrap_u64 (numCall (rec s) + 1) |};
                    reads := S (S (reads s)) |}) as (Hn & Ht & Hr & Hc).
    cbn [rec reads name totalTime numCall] in *.
    repeat split.
    + exact Hn.
    + rewrite Ht, deltas_S. reflexivity.
    + rewrite Hr. lia.
    + intros _. destruct N as [|N'].
      * cbn. reflexivity.
      * rewrite Hc by discriminate. rewrite wrap_u64_succ. f_equal. lia.
Qed.

(** C1 (as amended): on a record whose counters are zero, [N] successive
    start/stop pairs with [N] below [2^64] leave [numCall = N] and
    [totalTime] equal to the sum, in the backend's tick arithmetic, of the
    [N] deltas (stop tick minus captured start tick); each [StopMeasure]
    adds one delta and increments [numCall] by one, modulo [2^64]. *)
Theorem successive_scopes_count_and_total (r : TMeasureRecord) (k N : nat) :
  numCall r = 0 ->
  totalTime r = diff_zero ->
  Z.of_nat N < 2 ^ 64 ->
  let s := successive_scopes N {| rec := r; reads := k |} in
  numCall (rec s) = Z.of_nat N /\
  totalTime (rec s) = fold_left diff_add (deltas k N) diff_zero /\
  name (rec s) = name r /\
  reads s = (k + 2 * N)%nat /\
  (forall (start : TimePoint) (s0 : state TMeasureRecord),
      totalTime (rec (StopMeasure start s0)) =
        diff_add (totalTime (rec s0)) (tick_sub (GetTick (reads s0)) start) /\
      numCall (rec (StopMeasure start s0)) = wrap_u64 (numCall (rec s0) + 1) /\
      name (rec (StopMeasure start s0)) = name (rec s0)).
Proof.
  intros Hc Ht HN s.
  destruct (successive_scopes_spec N {| rec := r; reads := k |}) as (Hn & Htot & Hr & Hnum).
  fold s in Hn, Htot, Hr, Hnum. cbn [rec reads] in *.
  repeat split.
  - destruct N as [|N'].
    + subst s. cbn. exact Hc.
    + rewrite Hnum by discriminate. rewrite Hc. apply wrap_u64_small. lia.
  - rewrite Htot, Ht. reflexivity.
  - exact Hn.
  - exact Hr.
Qed.

End MeasureFacts.

Lemma successive_scopes_count_and_total_witness :
  let s := successive_scopes 3 {| rec := TMeasureRecord_init (H := DummyMeasureBackend) "f";
                                  reads := 0 |} in
  numCall (rec s) = 3 /\ totalTime (rec s) = 0.
Proof.
  pose proof (successive_scopes_count_and_total
                (TMeasureRecord_init (H := DummyMeasureBackend) "f") 0 3
                eq_refl eq_refl eq_refl) as H.
  cbv zeta in H. destruct H as (H1 & H2 & _).
  split; [exact H1 | exact H2].
Defined.

(** C1, as stated, fails for [N = 2^64]: the 64-bit call counter is back
    at 0 after [2^64] start/stop pairs on a fresh record. *)
Lemma successive_scopes_count_wraps :
  numCall (rec (successive_scopes (Z.to_nat (2 ^ 64))
                  {| rec := TMeasureRecord_init (H := DummyMeasureBackend) "f"; reads := 0 |}))
  <> Z.of_nat (Z.to_nat (2 ^ 64)).
Proof.
  assert (Hpos : 0 <= 2 ^ 64) by lia.
  pose proof (Z2Nat.id _ Hpos) as Hid.
  assert (Hnz : Z.to_nat (2 ^ 64) <> O).
  { intros E. rewrite E in Hid. cbn in Hid. lia. }
  generalize dependent (Z.to_nat (2 ^ 64)). intros n Hid Hnz.
  destruct (successive_scopes_spec n
              {| rec := TMeasureRecord_init (H := DummyMeasureBackend) "f"; reads := 0 |})
    as (_ & _ & _ & Hnum).
  rewrite (Hnum Hnz), Hid. cbn [rec numCall TMeasureRecord_init].
  unfold wrap_u64. rewrite Z.add_0_l, Z.mod_same by lia. lia.
Qed.

(** ** The depth counter *)

Section DepthFacts.
Context `{B : MeasureBackend}.

Lemma IncrementDepth_defined (r : MeasureRecordRSafe) :
  depth r < INT32_MAX ->
  IncrementDepth r = Some (depth r + 1 =? 1, {| base := base r; depth := depth r + 1 |}).
Proof.
  intros Hd. unfold IncrementDepth.
  destruct (Z.eqb_spec (depth r) INT32_MAX) as [E|_]; [lia | reflexivity].
Qed.

Lemma DecrementDepth_defined (r : MeasureRecordRSafe) :
  INT32_MIN < depth r ->
  DecrementDepth r = Some (depth r - 1 =? 0, {| base := base r; depth := depth r - 1 |}).
Proof.
  intros Hd. unfold DecrementDepth.
  destruct (Z.eqb_spec (depth r) INT32_MIN) as [E|_]; [lia | reflexivity].
Qed.

Lemma peak_ge (ops : list depth_op) (open : nat) : (open <= peak open ops)%nat.
Proof. destruct ops as [|[] ops]; cbn; lia. Qed.

Lemma depth_run_nested (ops : list depth_op) :
  forall (open : nat) (r : MeasureRecordRSafe),
    depth r = Z.of_nat open ->
    nested open ops = true ->
    Z.of_nat (peak open ops) <= INT32_MAX ->
    exists tr r',
      depth_run ops r = Some (tr, r') /\
      base r' = base r /\
      Forall (fun p : bool * Z => 0 <= snd p) tr /\
      Forall2 (fun o (p : bool * Z) =>
                 fst p = true <-> snd p = match o with Inc => 1 | Dec => 0 end) ops tr.
Proof.
  induction ops as [|o ops IH]; intros open r Hd Hn Hp.
  - exists [], r. cbn. repeat split; constructor.
  - destruct o.
    + cbn [nested peak] in Hn, Hp.
      pose proof (peak_ge ops (S open)) as Hge.
      assert (Hlt : depth r < INT32_MAX) by lia.
      destruct (IH (S open) {| base := base r; depth := depth r + 1 |})
        as (tr & r' & Hrun & Hb & Hall & Hans); [cbn; lia | exact Hn | lia |].
      exists ((depth r + 1 =? 1, depth r + 1) :: tr), r'.
      cbn [depth_run depth_step]. rewrite (IncrementDepth_defined r Hlt).
      cbn. rewrite Hrun. cbn. repeat split.
      * exact Hb.
      * constructor; [cbn; lia | exact Hall].
      * constructor; [cbn; apply Z.eqb_eq | exact Hans].
    + cbn [nested peak] in Hn, Hp. destruct open as [|n]; [discriminate|].
      assert (Hgt : INT32_MIN < depth r) by (unfold INT32_MIN; lia).
      destruct (IH n {| base := base r; depth := depth r - 1 |})
        as (tr & r' & Hrun & Hb & Hall & Hans); [cbn; lia | exact Hn | cbn in Hp; lia |].
      exists ((depth r - 1 =? 0, depth r - 1) :: tr), r'.
      cbn [depth_run depth_step]. rewrite (DecrementDepth_defined r Hgt).
      cbn. rewrite Hrun. cbn. repeat split.
      * exact Hb.
      * constructor; [cbn; lia | exact Hall].
      * constructor; [cbn; apply Z.eqb_eq | exact Hans].
Qed.

(** A destructor that leaves the depth away from 0 has not stopped the
    timer: the record and the clock are as it found them. *)
Lemma dtor_effective_only_at_zero (sc : MeasureScopeRSafe) (s s' : state MeasureRecordRSafe) :
  MeasureScopeRSafe_dtor sc s = Some s' ->
  depth (rec s') <> 0 ->
  base (rec s') = base (rec s) /\ reads s' = reads s.
Proof.
  unfold MeasureScopeRSafe_dtor, DecrementDepth.
  destruct (depth (rec s) =? INT32_MIN); [discriminate|]. cbn.
  destruct (Z.eqb_spec (depth (rec s) - 1) 0) as [E|E]; cbn.
  - destruct (rs_start sc); cbn; [|discriminate].
    intros [= <-]. cbn. intros Hne. lia.
  - intros [= <-]. cbn. split; reflexivity.
Qed.

(** C8 (as amended): from depth 0, along every sequence of
    [IncrementDepth]/[DecrementDepth] calls that follows the scope
    discipline and never has more than [INT32_MAX] increments unmatched,
    every call is defined, the depth is at least 0 after each of them,
    [IncrementDepth] answers true exactly when the new depth is 1 and
    [DecrementDepth] exactly when it is 0; and a scope destructor that does
    not bring the depth to 0 leaves the record and the clock alone. *)
Theorem depth_never_negative (ops : list depth_op) (r : MeasureRecordRSafe) :
  depth r = 0 ->
  nested O ops = true ->
  Z.of_nat (peak O ops) <= INT32_MAX ->
  (exists tr r',
      depth_run ops r = Some (tr, r') /\
      base r' = base r /\
      Forall (fun p : bool * Z => 0 <= snd p) tr /\
      Forall2 (fun o (p : bool * Z) =>
                 fst p = true <-> snd p = match o with Inc => 1 | Dec => 0 end) ops tr) /\
  (forall (sc : MeasureScopeRSafe) (s s' : state MeasureRecordRSafe),
      MeasureScopeRSafe_dtor sc s = Some s' ->
      depth (rec s') <> 0 ->
      base (rec s') = base (rec s) /\ reads s' = reads s).
Proof.
  intros Hd Hn Hp. split.
  - apply (depth_run_nested ops O r); assumption.
  - apply dtor_effective_only_at_zero.
Qed.

Lemma depth_run_increments (n : nat) :
  forall r : MeasureRecordRSafe,
    0 <= depth r ->
    depth r + Z.of_nat n <= INT32_MAX ->
    exists tr, depth_run (repeat Inc n) r =
               Some (tr, {| base := base r; depth := depth r + Z.of_nat n |}).
Proof.
  induction n as [|n IH]; intros r H0 Hmax.
  - exists []. cbn. destruct r as [b d]. cbn. do 3 f_equal. lia.
  - destruct (IH {| base := base r; depth := depth r + 1 |}) as (tr & Htr); [cbn; lia | cbn; lia |].
    exists ((depth r + 1 =? 1, depth r + 1) :: tr).
    cbn [repeat depth_run depth_step].
    rewrite (IncrementDepth_defined r) by lia. cbn. rewrite Htr. cbn.
    do 3 f_equal. lia.
Qed.

Lemma nested_increments (n open : nat) : nested open (repeat Inc n) = true.
Proof. revert open. induction n as [|n IH]; intros open; cbn; [reflexivity | apply IH]. Qed.

Lemma depth_run_app_None (l1 l2 : list depth_op) (r r1 : MeasureRecordRSafe)
  (tr : list (bool * Z)) :
  depth_run l1 r = Some (tr, r1) -> depth_run l2 r1 = None -> depth_run (l1 ++ l2) r = None.
Proof.
  revert r tr. induction l1 as [|o l1 IH]; intros r tr H1 H2.
  - cbn in H1. injection H1 as <- <-. exact H2.
  - cbn [app depth_run] in *. destruct (depth_step o r) as [[b r0]|]; [|discriminate].
    cbn in *. destruct (depth_run l1 r0) as [[tr0 r2]|] eqn:E; [|discriminate].
    cbn in H1. injection H1 as <- <-.
    rewrite (IH r0 tr0 E H2). reflexivity.
Qed.

End DepthFacts.

Lemma depth_never_negative_witness :
  exists tr r',
    depth_run [Inc; Inc; Dec; Inc; Dec; Dec]
              (MeasureRecordRSafe_init (B := DummyMeasureBackend) "f") = Some (tr, r') /\
    Forall (fun p : bool * Z => 0 <= snd p) tr.
Proof.
  destruct (depth_never_negative (B := DummyMeasureBackend)
              [Inc; Inc; Dec; Inc; Dec; Dec] (MeasureRecordRSafe_init "f")
              eq_refl eq_refl) as [(tr & r' & Hrun & _ & Hall & _) _].
  - vm_compute. discriminate.
  - exists tr, r'. split; assumption.
Defined.

(** C8, as stated, fails on the sequence of [2^31] increments, which
    follows the scope discipline: the last of them overflows the 32-bit
    depth, so that no depth at all, let alone a non-negative one, is
    defined after it. *)
Lemma depth_overflows :
  nested O (repeat Inc (Z.to_nat (2 ^ 31))) = true /\
  depth_run (repeat Inc (Z.to_nat (2 ^ 31)))
            (MeasureRecordRSafe_init (B := DummyMeasureBackend) "f") = None.
Proof.
  split; [apply nested_increments|].
  assert (E : Z.to_nat (2 ^ 31) = (Z.to_nat INT32_MAX + 1)%nat).
  { unfold INT32_MAX. lia. }
  rewrite E, repeat_app.
  destruct (depth_run_increments (B := DummyMeasureBackend) (Z.to_nat INT32_MAX)
              (MeasureRecordRSafe_init "f")) as (tr & Htr).
  - cbn. lia.
  - cbn [depth MeasureRecordRSafe_init]. rewrite Z2Nat.id by (unfold INT32_MAX; lia). lia.
  - eapply depth_run_app_None; [exact Htr|].
    cbn [depth MeasureRecordRSafe_init base]. rewrite Z2Nat.id by (unfold INT32_MAX; lia).
    reflexivity.
Qed.

(** ** Recursion-safe scopes *)

Section ScopeFacts.
Context `{B : MeasureBackend}.

Lemma ctor_outermost (s : state MeasureRecordRSafe) :
  depth (rec s) = 0 ->
  MeasureScopeRSafe_ctor s =
  Some ({| rs_start := Some (GetTick (reads s)) |},
        {| rec := {| base := base (rec s); depth := 1 |}; reads := S (reads s) |}).
Proof.
  intros Hd. unfold MeasureScopeRSafe_ctor.
  rewrite IncrementDepth_defined by (rewrite Hd; unfold INT32_MAX; lia).
  rewrite Hd. reflexivity.
Qed.

Lemma ctor_nested (s : state MeasureRecordRSafe) :
  1 <= depth (rec s) < INT32_MAX ->
  MeasureScopeRSafe_ctor s =
  Some ({| rs_start := None |},
        {| rec := {| base := base (rec s); depth := depth (rec s) + 1 |}; reads := reads s |}).
Proof.
  intros Hd. unfold MeasureScopeRSafe_ctor.
  rewrite IncrementDepth_defined by lia. cbn.
  destruct (Z.eqb_spec (depth (rec s) + 1) 1) as [E|_]; [lia | reflexivity].
Qed.

Lemma dtor_outermost (t : TimePoint) (s : state MeasureRecordRSafe) :
  depth (rec s) = 1 ->
  MeasureScopeRSafe_dtor {| rs_start := Some t |} s =
  Some {| rec := {| base := {| name := name (base (rec s));
                               totalTime := diff_add (totalTime (base (rec s)))
                                                     (tick_sub (GetTick (reads s)) t);
                               numCall := wrap_u64 (numCall (base (rec s)) + 1) |};
                    depth := 0 |};
          reads := S (reads s) |}.
Proof.
  intros Hd. unfold MeasureScopeRSafe_dtor.
  rewrite DecrementDepth_defined by (rewrite Hd; unfold INT32_MIN; lia).
  rewrite Hd. reflexivity.
Qed.

Lemma dtor_nested (sc : MeasureScopeRSafe) (s : state MeasureRecordRSafe) :
  2 <= depth (rec s) ->
  MeasureScopeRSafe_dtor sc s =
  Some {| rec := {| base := base (rec s); depth := depth (rec s) - 1 |}; reads := reads s |}.
Proof.
  intros Hd. unfold MeasureScopeRSafe_dtor.
  rewrite DecrementDepth_defined by (unfold INT32_MIN; lia). cbn.
  destruct (Z.eqb_spec (depth (rec s) - 1) 0) as [E|_]; [lia | reflexivity].
Qed.

Lemma run_calls_Scoped (inner rest : calls) (sc : MeasureScopeRSafe)
  (s s1 s2 s3 : state MeasureRecordRSafe) :
  MeasureScopeRSafe_ctor s = Some (sc, s1) ->
  run_calls inner s1 = Some s2 ->
  MeasureScopeRSafe_dtor sc s2 = Some s3 ->
  run_calls (Scoped inner rest) s = run_calls rest s3.
Proof.
  intros H1 H2 H3. cbn [run_calls].
  rewrite H1. cbn [mbind option_bind].
  rewrite H2. cbn [mbind option_bind].
  rewrite H3. reflexivity.
Qed.

(** Inside a measured invocation the scopes are inert: whatever the nesting
    below, the record and the clock come back as they were. *)
Lemma run_calls_nested (c : calls) :
  forall s : state MeasureRecordRSafe,
    1 <= depth (rec s) ->
    depth (rec s) + Z.of_nat (nesting c) <= INT32_MAX ->
    run_calls c s = Some s.
Proof.
  induction c as [|inner IHinner rest IHrest]; intros s Hd Hmax.
  - reflexivity.
  - cbn [nesting] in Hmax.
    erewrite (run_calls_Scoped inner rest _ s _ _ s); cycle 1.
    + apply ctor_nested; lia.
    + apply IHinner; cbn; lia.
    + rewrite dtor_nested by (cbn; lia). cbn [rec depth base reads].
      replace (depth (rec s) + 1 - 1) with (depth (rec s)) by lia.
      destruct s as [[b d] k]. reflexivity.
    + apply IHrest; lia.
Qed.

(** At depth 0, running [c] is running one plain scope per top-level
    invocation. *)
Lemma run_calls_toplevel (c : calls) :
  forall s : state MeasureRecordRSafe,
    depth (rec s) = 0 ->
    Z.of_nat (nesting c) <= INT32_MAX ->
    run_calls c s = Some (with_depth 0 (successive_scopes (invocations c) (base_state s))).
Proof.
  induction c as [|inner _ rest IHrest]; intros s Hd Hmax.
  - cbn. destruct s as [[b d] k]. cbn in *. subst d. reflexivity.
  - cbn [nesting] in Hmax. cbn [invocations].
    erewrite (run_calls_Scoped inner rest _ s); cycle 1.
    + apply ctor_outermost; exact Hd.
    + apply run_calls_nested; cbn; lia.
    + apply dtor_outermost; reflexivity.
    + rewrite IHrest by (cbn; lia).
      rewrite successive_scopes_S. reflexivity.
Qed.

(** C2 (as amended): on a recursion-safe record at depth 0, for scopes
    nested at most [INT32_MAX] deep, the outermost constructor captures
    the start tick, everything nested inside leaves the record and the
    clock untouched (no inner scope calls [StopMeasure]), and the outermost
    destructor commits once: one delta from that start tick, [numCall] one
    more.  So a run counts one call and one elapsed time per top-level
    invocation, as plain scopes would with the recursion removed. *)
Theorem recursion_safe_scope_measures_once (inner rest : calls)
  (s : state MeasureRecordRSafe) :
  depth (rec s) = 0 ->
  Z.of_nat (nesting (Scoped inner rest)) <= INT32_MAX ->
  let entered := {| rec := {| base := base (rec s); depth := 1 |}; reads := S (reads s) |} in
  let left := {| rec := {| base := {| name := name (base (rec s));
                                      totalTime := diff_add (totalTime (base (rec s)))
                                                            (delta (reads s));
                                      numCall := wrap_u64 (numCall (base (rec s)) + 1) |};
                           depth := 0 |};
                 reads := S (S (reads s)) |} in
  MeasureScopeRSafe_ctor s = Some ({| rs_start := Some (GetTick (reads s)) |}, entered) /\
  run_calls inner entered = Some entered /\
  MeasureScopeRSafe_dtor {| rs_start := Some (GetTick (reads s)) |} entered = Some left /\
  run_calls (Scoped inner Done) s = Some left /\
  run_calls (Scoped inner rest) s =
    Some (with_depth 0 (successive_scopes (S (invocations rest)) (base_state s))).
Proof.
  intros Hd Hmax entered left. cbn [nesting] in Hmax.
  assert (Hc : MeasureScopeRSafe_ctor s =
               Some ({| rs_start := Some (GetTick (reads s)) |}, entered))
    by (apply ctor_outermost; exact Hd).
  assert (Hi : run_calls inner entered = Some entered)
    by (apply run_calls_nested; cbn; lia).
  assert (Hx : MeasureScopeRSafe_dtor {| rs_start := Some (GetTick (reads s)) |} entered =
               Some left)
    by (apply dtor_outermost; reflexivity).
  repeat split; try assumption.
  - rewrite (run_calls_Scoped inner Done _ s _ _ _ Hc Hi Hx). reflexivity.
  - apply (run_calls_toplevel (Scoped inner rest)); [exact Hd | cbn [nesting]; lia].
Qed.

Lemma ctor_depth (s : state MeasureRecordRSafe) :
  depth (rec s) <> INT32_MAX ->
  exists sc s1, MeasureScopeRSafe_ctor s = Some (sc, s1) /\
                depth (rec s1) = depth (rec s) + 1.
Proof.
  intros Hd. unfold MeasureScopeRSafe_ctor, IncrementDepth.
  destruct (Z.eqb_spec (depth (rec s)) INT32_MAX) as [E|_]; [contradiction|]. cbn.
  destruct (depth (rec s) + 1 =? 1); cbn; eexists _, _; split; reflexivity.
Qed.

(** Recursion one level deeper than the depth counter can count. *)
Lemma RecursiveFunction_overflow (level : nat) :
  forall s : state MeasureRecordRSafe,
    depth (rec s) <= INT32_MAX ->
    INT32_MAX < depth (rec s) + Z.of_nat level + 1 ->
    run_calls (RecursiveFunction level) s = None.
Proof.
  induction level as [|l IH]; intros s Hle Hgt.
  - cbn [RecursiveFunction run_calls].
    assert (E : depth (rec s) = INT32_MAX) by lia.
    unfold MeasureScopeRSafe_ctor, IncrementDepth. rewrite E. reflexivity.
  - cbn [RecursiveFunction run_calls]. fold (RecursiveFunction l).
    destruct (Z.eq_dec (depth (rec s)) INT32_MAX) as [E|Hne].
    + unfold MeasureScopeRSafe_ctor, IncrementDepth. rewrite E. reflexivity.
    + destruct (ctor_depth s Hne) as (sc & s1 & Hc & Hd1). rewrite Hc. cbn.
      rewrite (IH s1) by lia. reflexivity.
Qed.

End ScopeFacts.

Lemma recursion_safe_scope_measures_once_witness :
  run_calls (RecursiveFunction 9)
            {| rec := MeasureRecordRSafe_init (B := DummyMeasureBackend) "RecursiveFunction_2";
               reads := 0 |} =
  Some {| rec := {| base := {| name := "RecursiveFunction_2"; totalTime := 0; numCall := 1 |};
                    depth := 0 |};
          reads := 2 |}.
Proof.
  assert (Hmax : Z.of_nat (nesting (Scoped (RecursiveFunction 8) Done)) <= INT32_MAX)
    by (vm_compute; discriminate).
  destruct (recursion_safe_scope_measures_once (B := DummyMeasureBackend)
              (RecursiveFunction 8) Done
              {| rec := MeasureRecordRSafe_init "RecursiveFunction_2"; reads := 0 |}
              eq_refl Hmax) as (_ & _ & _ & H & _).
  exact H.
Defined.

(** C2, as stated, fails at nesting depth [D = 2^31]: the innermost
    [IncrementDepth] overflows the 32-bit depth, and the invocation has no
    defined outcome, so no call is counted for it. *)
Lemma recursion_too_deep :
  Z.of_nat (nesting (RecursiveFunction (Z.to_nat INT32_MAX))) = 2 ^ 31 /\
  run_calls (RecursiveFunction (Z.to_nat INT32_MAX))
            {| rec := MeasureRecordRSafe_init (B := DummyMeasureBackend) "RecursiveFunction_2";
               reads := 0 |} = None.
Proof.
  split.
  - assert (Hn : forall l, nesting (RecursiveFunction l) = S l).
    { induction l as [|l IH]; [reflexivity|].
      cbn [RecursiveFunction nesting]. fold (RecursiveFunction l). rewrite IH. lia. }
    rewrite Hn. unfold INT32_MAX. lia.
  - apply RecursiveFunction_overflow.
    + cbn. unfold INT32_MAX. lia.
    + cbn [rec depth MeasureRecordRSafe_init]. rewrite Z2Nat.id by (unfold INT32_MAX; lia). lia.
Qed.

(** ** MeasureDatabase *)

Section DatabaseFacts.
Context `{B : MeasureBackend}.

Lemma name_is_true (h : list TMeasureRecord) (n : string) (a : addr) :
  name_is h n a = true <-> exists r, h !! a = Some r /\ name r = n.
Proof.
  unfold name_is. destruct (h !! a) as [r|].
  - rewrite String.eqb_eq. split.
    + intros E. exists r. split; [reflexivity | exact E].
    + intros (r' & [= <-] & E). exact E.
  - split; [discriminate | intros (r & Hr & _); discriminate].
Qed.

Lemma name_is_false (h : list TMeasureRecord) (n : string) (a : addr) :
  name_is h n a = false <-> forall r, h !! a = Some r -> name r <> n.
Proof.
  unfold name_is. destruct (h !! a) as [r|].
  - rewrite String.eqb_neq. split.
    + intros E r' [= <-]. exact E.
    + intros H. apply H. reflexivity.
  - split; [intros _ r Hr; discriminate | reflexivity].
Qed.

Lemma find_record_first (h : list TMeasureRecord) (n : string) (rs : list addr) :
  match find_record h n rs with
  | Some a => exists l1 l2, rs = l1 ++ a :: l2 /\ name_is h n a = true /\
                            Forall (fun b => name_is h n b = false) l1
  | None => Forall (fun b => name_is h n b = false) rs
  end.
Proof.
  induction rs as [|mr rs IH]; cbn [find_record].
  - constructor.
  - destruct (name_is h n mr) eqn:E.
    + exists [], rs. repeat split; [exact E | constructor].
    + destruct (find_record h n rs) as [a|].
      * destruct IH as (l1 & l2 & -> & Ha & Hl1).
        exists (mr :: l1), l2. repeat split; [exact Ha | constructor; assumption].
      * constructor; assumption.
Qed.

(** C7: [FindMeasureRecord] answers with the first registered record, in
    registration order, whose name is the given one, and with the null
    result when no registered record has that name; it is a total function
    and raises nothing. *)
Theorem FindMeasureRecord_first_match (n : string) (w : World) :
  match FindMeasureRecord n w with
  | Some a =>
      exists (l1 l2 : list addr) (r : TMeasureRecord),
        records w = l1 ++ a :: l2 /\
        heap w !! a = Some r /\ name r = n /\
        (forall (b : addr) (r' : TMeasureRecord),
            b ∈ l1 -> heap w !! b = Some r' -> name r' <> n)
  | None =>
      forall (b : addr) (r' : TMeasureRecord),
        b ∈ records w -> heap w !! b = Some r' -> name r' <> n
  end.
Proof.
  unfold FindMeasureRecord.
  pose proof (find_record_first (heap w) n (records w)) as H.
  destruct (find_record (heap w) n (records w)) as [a|].
  - destruct H as (l1 & l2 & Hrs & Ha & Hl1).
    apply name_is_true in Ha. destruct Ha as (r & Hr & Hn).
    exists l1, l2, r. repeat split; try assumption.
    intros b r' Hb Hr'. rewrite Forall_forall in Hl1.
    apply (proj1 (name_is_false (heap w) n b) (Hl1 b Hb) r' Hr').
  - intros b r' Hb Hr'. rewrite Forall_forall in H.
    apply (proj1 (name_is_false (heap w) n b) (H b Hb) r' Hr').
Qed.

(** *** ResetAll *)

Lemma ResetAll_fold (l : list addr) :
  forall w : World,
    records (fold_left reset_step l w) = records w /\
    dynamicRecords (fold_left reset_step l w) = dynamicRecords w /\
    log (fold_left reset_step l w) = log w ++ map Reset l /\
    heap (fold_left reset_step l w) =
      fold_left (fun h mr => alter reset_counters mr h) l (heap w).
Proof.
  induction l as [|a l IH]; intros w; cbn [fold_left map].
  - rewrite app_nil_r. repeat split.
  - destruct (IH (reset_step w a)) as (Hr & Hd & Hl & Hh).
    rewrite Hr, Hd, Hl, Hh. cbn. rewrite <- app_assoc. repeat split.
Qed.

Lemma reset_counters_idemp (r : TMeasureRecord) :
  reset_counters (reset_counters r) = reset_counters r.
Proof. reflexivity. Qed.

Lemma alter_all_lookup (l : list addr) :
  forall (h : list TMeasureRecord) (a : addr),
    fold_left (fun h mr => alter reset_counters mr h) l h !! a =
    (if decide (a ∈ l) then reset_counters else id) <$> h !! a.
Proof.
  induction l as [|a0 l IH]; intros h a; cbn [fold_left].
  - rewrite decide_False by apply not_elem_of_nil.
    destruct (h !! a); reflexivity.
  - rewrite IH. destruct (decide (a = a0)) as [->|Hne].
    + rewrite list_lookup_alter_eq.
      rewrite (decide_True (P := a0 ∈ a0 :: l)) by (apply elem_of_cons; left; reflexivity).
      destruct (h !! a0) as [r|]; [|destruct (decide (a0 ∈ l)); reflexivity].
      destruct (decide (a0 ∈ l)); reflexivity.
    + rewrite list_lookup_alter_ne by congruence.
      destruct (decide (a ∈ l)) as [Hin|Hni].
      * rewrite decide_True by (apply elem_of_cons; right; exact Hin). reflexivity.
      * rewrite decide_False; [reflexivity|].
        intros Hin. apply elem_of_cons in Hin. destruct Hin as [E|Hin]; contradiction.
Qed.

Lemma alter_all_length (l : list addr) :
  forall h : list TMeasureRecord,
    length (fold_left (fun h mr => alter reset_counters mr h) l h) = length h.
Proof.
  induction l as [|a l IH]; intros h; cbn [fold_left]; [reflexivity|].
  rewrite IH. apply length_alter.
Qed.

Lemma find_record_ext (h h' : list TMeasureRecord) (n : string) (rs : list addr) :
  (forall a, name_is h' n a = name_is h n a) ->
  find_record h' n rs = find_record h n rs.
Proof.
  intros Hext. induction rs as [|mr rs IH]; cbn [find_record]; [reflexivity|].
  rewrite Hext, IH. reflexivity.
Qed.

(** C6: [ResetAll] zeroes [numCall] and [totalTime] of every registered
    record, in place, and changes nothing else: the record sequence and its
    order, the dynamic database, the set of live records, every name, and
    the records that are not registered stay as they were, and
    [FindMeasureRecord] answers as before for every name. *)
Theorem ResetAll_zeroes_counters_only (w : World) :
  records (ResetAll w) = records w /\
  dynamicRecords (ResetAll w) = dynamicRecords w /\
  length (heap (ResetAll w)) = length (heap w) /\
  (forall (a : addr) (r : TMeasureRecord),
      a ∈ records w -> heap w !! a = Some r ->
      heap (ResetAll w) !! a =
      Some {| name := name r; totalTime := diff_zero; numCall := 0 |}) /\
  (forall a : addr, a ∉ records w -> heap (ResetAll w) !! a = heap w !! a) /\
  (forall n : string, FindMeasureRecord n (ResetAll w) = FindMeasureRecord n w).
Proof.
  unfold ResetAll.
  destruct (ResetAll_fold (records w) w) as (Hr & Hd & _ & Hh).
  assert (Hlook : forall a : addr,
             heap (fold_left reset_step (records w) w) !! a =
             (if decide (a ∈ records w) then reset_counters else id) <$> heap w !! a).
  { intros a. rewrite Hh. apply alter_all_lookup. }
  repeat split.
  - exact Hr.
  - exact Hd.
  - rewrite Hh. apply alter_all_length.
  - intros a r Ha Hr0. rewrite Hlook, Hr0, decide_True by exact Ha. reflexivity.
  - intros a Ha. rewrite Hlook, decide_False by exact Ha.
    destruct (heap w !! a); reflexivity.
  - intros n. unfold FindMeasureRecord. rewrite Hr.
    apply find_record_ext. intros a. unfold name_is. rewrite Hlook.
    destruct (heap w !! a) as [r|]; [|reflexivity].
    destruct (decide (a ∈ records w)); reflexivity.
Qed.

End DatabaseFacts.

(** ** Locks *)

Section LockFacts.
Context `{B : MeasureBackend}.

Lemma AddRecord_spec (a : addr) (w : World) :
  AddRecord a w =
  {| heap := heap w; records := records w ++ [a]; dynamicRecords := dynamicRecords w;
     log := log w ++ [Acquire DatabaseMutex; PushBack a; Release DatabaseMutex] |}.
Proof.
  unfold AddRecord, lock_guard, emit, set_records. cbn.
  rewrite <- !app_assoc. reflexivity.
Qed.

Lemma for_records_spec (row : TMeasureRecord -> report) (rs : list addr) :
  forall w : World,
    heap (snd (for_records row rs w)) = heap w /\
    records (snd (for_records row rs w)) = records w /\
    dynamicRecords (snd (for_records row rs w)) = dynamicRecords w /\
    log (snd (for_records row rs w)) = log w ++ map Visit rs /\
    out (fst (for_records row rs w)) =
      flat_map (fun mr => match heap w !! mr with Some x => out (row x) | None => [] end) rs /\
    divisions (fst (for_records row rs w)) =
      flat_map (fun mr => match heap w !! mr with Some x => divisions (row x) | None => [] end) rs.
Proof.
  induction rs as [|mr rs IH]; intros w; cbn [for_records flat_map map].
  - cbn. rewrite app_nil_r. repeat split.
  - destruct (IH (emit (Visit mr) w)) as (Hh & Hr & Hd & Hl & Ho & Hv).
    destruct (for_records row rs (emit (Visit mr) w)) as [rest w2].
    cbn [fst snd] in *. unfold report_app.
    cbn [out divisions emit heap records dynamicRecords log] in *.
    rewrite Hh, Hr, Hd, Hl, Ho, Hv. rewrite <- app_assoc.
    repeat split; destruct (heap w !! mr); reflexivity.
Qed.

Lemma PrintReport_log (w : World) : log (snd (PrintReport w)) = log w ++ map Visit (records w).
Proof.
  unfold PrintReport. destruct (records w) as [|a rs] eqn:E.
  - cbn. rewrite app_nil_r. reflexivity.
  - destruct (for_records_spec PrintReport_row (a :: rs) w) as (_ & _ & _ & Hl & _).
    destruct (for_records PrintReport_row (a :: rs) w) as [rows w'].
    exact Hl.
Qed.

Lemma CsvReport_log (w : World) :
  log (snd (CsvReport w)) =
  log w ++ [Acquire DatabaseMutex] ++ map Visit (records w) ++ [Release DatabaseMutex].
Proof.
  unfold CsvReport, lock_guard, GetRecords, GetMutex.
  change (records (emit (Acquire DatabaseMutex) w)) with (records w).
  destruct (records w) as [|a rs] eqn:E.
  - cbn. rewrite <- app_assoc. reflexivity.
  - destruct (for_records_spec CsvReport_row (a :: rs) (emit (Acquire DatabaseMutex) w))
      as (_ & _ & _ & Hl & _).
    destruct (for_records CsvReport_row (a :: rs) (emit (Acquire DatabaseMutex) w))
      as [rows w'].
    cbn [fst snd emit log] in *. rewrite Hl. rewrite <- !app_assoc. reflexivity.
Qed.

(** C5 does not hold of the code.  What each operation of the Database
    adds to the log: [AddRecord] appends between taking and releasing the
    Database's mutex, and [CsvReport] visits the records between the two;
    [ResetAll] zeroes the counters of the registered records, and
    [PrintReport] visits them, without ever touching the mutex. *)
Theorem ResetAll_and_PrintReport_take_no_lock (w : World) :
  (forall a : addr,
      log (AddRecord a w) =
      log w ++ [Acquire DatabaseMutex; PushBack a; Release DatabaseMutex]) /\
  log (snd (CsvReport w)) =
    log w ++ [Acquire DatabaseMutex] ++ map Visit (records w) ++ [Release DatabaseMutex] /\
  log (ResetAll w) = log w ++ map Reset (records w) /\
  log (snd (PrintReport w)) = log w ++ map Visit (records w).
Proof.
  repeat split.
  - intros a. rewrite AddRecord_spec. reflexivity.
  - apply CsvReport_log.
  - unfold ResetAll. destruct (ResetAll_fold (records w) w) as (_ & _ & Hl & _). exact Hl.
  - apply PrintReport_log.
Qed.

End LockFacts.

(** ** DynamicMeasureDatabase *)

Section DynamicFacts.
Context `{B : MeasureBackend}.

Lemma wf_empty_world : wf empty_world.
Proof.
  unfold wf, empty_world. cbn. repeat split.
  - intros a Ha. apply not_elem_of_nil in Ha. contradiction.
  - intros n a Hn. rewrite lookup_empty in Hn. discriminate.
  - intros n1 n2 a Hn. rewrite lookup_empty in Hn. discriminate.
Qed.

Lemma wf_construct (n : string) (autoRegister : bool) (w : World) :
  wf w -> wf (snd (construct n autoRegister w)).
Proof.
  intros (Hrec & Hdyn & Hinj). unfold construct. cbn [snd].
  destruct autoRegister; [rewrite AddRecord_spec|];
    unfold wf, set_heap; cbn [heap records dynamicRecords];
    rewrite length_app; cbn [length].
  - split; [|split; [|exact Hinj]].
    + intros a Ha. apply elem_of_app in Ha. destruct Ha as [Ha|Ha].
      * specialize (Hrec a Ha). lia.
      * apply list_elem_of_singleton in Ha. lia.
    + intros n' a Ha. specialize (Hdyn n' a Ha). lia.
  - split; [|split; [|exact Hinj]].
    + intros a Ha. specialize (Hrec a Ha). lia.
    + intros n' a Ha. specialize (Hdyn n' a Ha). lia.
Qed.

Lemma wf_ResetAll (w : World) : wf w -> wf (ResetAll w).
Proof.
  intros (Hrec & Hdyn & Hinj). unfold ResetAll.
  destruct (ResetAll_fold (records w) w) as (Hr & Hd & _ & Hh).
  unfold wf. rewrite Hr, Hd, Hh, alter_all_length.
  split; [exact Hrec | split; [exact Hdyn | exact Hinj]].
Qed.

Lemma GetOrAddDynamicRecord_present (n : string) (a : addr) (w : World) :
  dynamicRecords w !! n = Some a ->
  GetOrAddDynamicRecord n w =
  (a, {| heap := heap w; records := records w; dynamicRecords := dynamicRecords w;
         log := log w ++ [Acquire DynamicDatabaseMutex; Release DynamicDatabaseMutex] |}).
Proof.
  intros Hn. unfold GetOrAddDynamicRecord, lock_guard.
  change (dynamicRecords (emit (Acquire DynamicDatabaseMutex) w)) with (dynamicRecords w).
  rewrite Hn. unfold emit. cbn. rewrite <- app_assoc. reflexivity.
Qed.

Lemma GetOrAddDynamicRecord_absent (n : string) (w : World) :
  dynamicRecords w !! n = None ->
  GetOrAddDynamicRecord n w =
  (length (heap w),
   {| heap := heap w ++ [TMeasureRecord_init n];
      records := records w ++ [length (heap w)];
      dynamicRecords := <[n := length (heap w)]> (dynamicRecords w);
      log := log w ++ [Acquire DynamicDatabaseMutex;
                       Acquire DatabaseMutex; PushBack (length (heap w)); Release DatabaseMutex;
                       Release DynamicDatabaseMutex] |}).
Proof.
  intros Hn. unfold GetOrAddDynamicRecord, lock_guard.
  change (dynamicRecords (emit (Acquire DynamicDatabaseMutex) w)) with (dynamicRecords w).
  rewrite Hn. unfold construct. rewrite AddRecord_spec.
  unfold emit, set_heap, set_dynamicRecords. cbn. rewrite <- !app_assoc. reflexivity.
Qed.

(** A call keeps the invariant, leaves its result stored under its name,
    and keeps every entry of the mapping. *)
Lemma GetOrAddDynamicRecord_wf (n : string) (w : World) :
  wf w ->
  wf (snd (GetOrAddDynamicRecord n w)) /\
  dynamicRecords (snd (GetOrAddDynamicRecord n w)) !! n = Some (fst (GetOrAddDynamicRecord n w)) /\
  dynamicRecords w ⊆ dynamicRecords (snd (GetOrAddDynamicRecord n w)).
Proof.
  intros (Hrec & Hdyn & Hinj).
  destruct (dynamicRecords w !! n) as [a|] eqn:Hn.
  - rewrite (GetOrAddDynamicRecord_present n a w Hn). cbn.
    split; [|split; [exact Hn | reflexivity]].
    unfold wf. cbn. repeat split; assumption.
  - rewrite (GetOrAddDynamicRecord_absent n w Hn). cbn.
    split; [|split; [apply lookup_insert_eq | apply insert_subseteq; exact Hn]].
    unfold wf. cbn. repeat split.
    + intros a Ha. rewrite length_app. cbn. apply elem_of_app in Ha. destruct Ha as [Ha|Ha].
      * specialize (Hrec a Ha). lia.
      * apply list_elem_of_singleton in Ha. lia.
    + intros n' a Ha. rewrite length_app. cbn.
      destruct (decide (n = n')) as [->|Hne].
      * rewrite lookup_insert_eq in Ha. injection Ha as <-. lia.
      * rewrite lookup_insert_ne in Ha by exact Hne. specialize (Hdyn n' a Ha). lia.
    + intros n1 n2 a H1 H2.
      destruct (decide (n = n1)) as [E1|Hne1]; destruct (decide (n = n2)) as [E2|Hne2].
      * congruence.
      * subst n1. rewrite lookup_insert_eq in H1. injection H1 as <-.
        rewrite lookup_insert_ne in H2 by exact Hne2. specialize (Hdyn n2 _ H2). lia.
      * subst n2. rewrite lookup_insert_eq in H2. injection H2 as <-.
        rewrite lookup_insert_ne in H1 by exact Hne1. specialize (Hdyn n1 _ H1). lia.
      * rewrite lookup_insert_ne in H1 by exact Hne1.
        rewrite lookup_insert_ne in H2 by exact Hne2. exact (Hinj n1 n2 a H1 H2).
Qed.

Lemma GetOrAddDynamicRecords_wf (ns : list string) :
  forall w : World,
    wf w ->
    wf (snd (GetOrAddDynamicRecords ns w)) /\
    dynamicRecords w ⊆ dynamicRecords (snd (GetOrAddDynamicRecords ns w)) /\
    (forall (i : nat) (n : string) (a : addr),
        ns !! i = Some n ->
        fst (GetOrAddDynamicRecords ns w) !! i = Some a ->
        dynamicRecords (snd (GetOrAddDynamicRecords ns w)) !! n = Some a).
Proof.
  induction ns as [|n ns IH]; intros w Hwf; cbn [GetOrAddDynamicRecords].
  - cbn. split; [exact Hwf | split; [reflexivity | intros i n a Hi; discriminate]].
  - destruct (GetOrAddDynamicRecord_wf n w Hwf) as (Hwf1 & Hn & Hsub).
    destruct (GetOrAddDynamicRecord n w) as [a0 w1]. cbn [fst snd] in *.
    destruct (IH w1 Hwf1) as (Hwf2 & Hsub2 & Hall).
    destruct (GetOrAddDynamicRecords ns w1) as [l w2]. cbn [fst snd] in *.
    split; [|split].
    + exact Hwf2.
    + etrans; eassumption.
    + intros [|i] n' a Hi Ha; cbn in Hi, Ha.
      * injection Hi as <-. injection Ha as <-.
        apply (lookup_weaken _ _ _ _ Hn Hsub2).
      * exact (Hall i n' a Hi Ha).
Qed.

(** C3: a call of [GetOrAddDynamicRecord] with a name that the mapping
    does not hold constructs a record under that name, which registers
    itself at the end of the Database ([autoRegister] is true), stores it
    in the mapping and returns it; a call with a name that the mapping
    holds returns the stored record and creates nothing; and along any
    sequence of calls, two calls return the same record exactly when their
    names are equal. *)
Theorem GetOrAddDynamicRecord_idempotent (w : World) (ns : list string) :
  wf w ->
  (forall n : string,
      dynamicRecords w !! n = None ->
      GetOrAddDynamicRecord n w =
      (length (heap w),
       {| heap := heap w ++ [{| name := n; totalTime := diff_zero; numCall := 0 |}];
          records := records w ++ [length (heap w)];
          dynamicRecords := <[n := length (heap w)]> (dynamicRecords w);
          log := log w ++ [Acquire DynamicDatabaseMutex;
                           Acquire DatabaseMutex; PushBack (length (heap w));
                           Release DatabaseMutex;
                           Release DynamicDatabaseMutex] |})) /\
  (forall (n : string) (a : addr),
      dynamicRecords w !! n = Some a ->
      GetOrAddDynamicRecord n w =
      (a, {| heap := heap w; records := records w; dynamicRecords := dynamicRecords w;
             log := log w ++ [Acquire DynamicDatabaseMutex;
                              Release DynamicDatabaseMutex] |})) /\
  (forall n : string,
      let first := GetOrAddDynamicRecord n w in
      let second := GetOrAddDynamicRecord n (snd first) in
      fst second = fst first /\
      heap (snd second) = heap (snd first) /\
      records (snd second) = records (snd first) /\
      dynamicRecords (snd second) = dynamicRecords (snd first)) /\
  wf (snd (GetOrAddDynamicRecords ns w)) /\
  (forall (i j : nat) (ni nj : string) (ai aj : addr),
      ns !! i = Some ni -> ns !! j = Some nj ->
      fst (GetOrAddDynamicRecords ns w) !! i = Some ai ->
      fst (GetOrAddDynamicRecords ns w) !! j = Some aj ->
      (ai = aj <-> ni = nj)).
Proof.
  intros Hwf. split; [|split; [|split; [|split]]].
  - intros n Hn. apply GetOrAddDynamicRecord_absent. exact Hn.
  - intros n a Hn. apply GetOrAddDynamicRecord_present. exact Hn.
  - intros n first second. subst second.
    destruct (GetOrAddDynamicRecord_wf n w Hwf) as (_ & Hn & _). fold first in Hn.
    rewrite (GetOrAddDynamicRecord_present n (fst first) (snd first) Hn).
    cbn [fst snd heap records dynamicRecords]. repeat split.
  - apply GetOrAddDynamicRecords_wf. exact Hwf.
  - destruct (GetOrAddDynamicRecords_wf ns w Hwf) as (Hwf' & _ & Hall).
    intros i j ni nj ai aj Hi Hj Hai Haj.
    pose proof (Hall i ni ai Hi Hai) as Di. pose proof (Hall j nj aj Hj Haj) as Dj.
    destruct Hwf' as (_ & _ & Hinj). split.
    + intros ->. exact (Hinj ni nj aj Di Dj).
    + intros ->. rewrite Di in Dj. injection Dj as ->. reflexivity.
Qed.

End DynamicFacts.

Lemma GetOrAddDynamicRecord_idempotent_witness :
  fst (GetOrAddDynamicRecords (B := DummyMeasureBackend) ["X"; "X"; "Y"]%string empty_world)
  = [0; 0; 1]%nat /\
  wf (snd (GetOrAddDynamicRecords (B := DummyMeasureBackend)
             ["X"; "X"; "Y"]%string empty_world)).
Proof.
  split; [vm_compute; reflexivity|].
  exact (proj1 (proj2 (proj2 (proj2
           (GetOrAddDynamicRecord_idempotent (B := DummyMeasureBackend)
              empty_world ["X"; "X"; "Y"]%string wf_empty_world))))).
Defined.

(** ** Reports *)

Section ReportFacts.
Context `{B : MeasureBackend}.

Lemma pad_left_0 (s : string) : pad_left O s = s.
Proof. reflexivity. Qed.

Lemma PrintReport_out (w : World) :
  out (fst (PrintReport w)) =
  match records w with
  | [] => []
  | _ :: _ =>
      PrintReport_head ++
      flat_map (fun mr => match heap w !! mr with
                          | Some x => out (PrintReport_row x)
                          | None => []
                          end) (records w) ++
      [Str (dashes 86); Endl]
  end /\
  divisions (fst (PrintReport w)) =
  flat_map (fun mr => match heap w !! mr with
                      | Some x => divisions (PrintReport_row x)
                      | None => []
                      end) (records w).
Proof.
  unfold PrintReport. destruct (records w) as [|a rs] eqn:E; [split; reflexivity|].
  destruct (for_records_spec PrintReport_row (a :: rs) w) as (_ & _ & _ & _ & Ho & Hv).
  destruct (for_records PrintReport_row (a :: rs) w) as [rows w'].
  cbn [fst snd] in *. unfold report_app, write. cbn [out divisions].
  rewrite Ho, Hv, app_nil_r. split; reflexivity.
Qed.

Lemma CsvReport_out (w : World) :
  out (fst (CsvReport w)) =
  match records w with
  | [] => []
  | _ :: _ =>
      Str ("name,num_calls,total_ns,average_ns" +:+ nl) ::
      flat_map (fun mr => match heap w !! mr with
                          | Some x => out (CsvReport_row x)
                          | None => []
                          end) (records w)
  end /\
  divisions (fst (CsvReport w)) =
  flat_map (fun mr => match heap w !! mr with
                      | Some x => divisions (CsvReport_row x)
                      | None => []
                      end) (records w).
Proof.
  unfold CsvReport, lock_guard, GetRecords, GetMutex.
  change (records (emit (Acquire DatabaseMutex) w)) with (records w).
  destruct (records w) as [|a rs] eqn:E; [split; reflexivity|].
  destruct (for_records_spec CsvReport_row (a :: rs) (emit (Acquire DatabaseMutex) w))
    as (_ & _ & _ & _ & Ho & Hv).
  destruct (for_records CsvReport_row (a :: rs) (emit (Acquire DatabaseMutex) w))
    as [rows w'].
  cbn [fst snd] in *. unfold report_app, write. cbn [out divisions app].
  rewrite Ho, Hv. split; reflexivity.
Qed.

(** C4 (as amended): a report row leaves the time fields out exactly when
    the record's total seconds is negative or its call count is zero.  The
    text row is then the name and the calls, and the CSV row reads
    [name,calls,,]: the two time fields are empty.  Otherwise, a total of
    zero seconds included, the row has all four fields.  The reports are
    made of these rows, one per registered record, in registration order. *)
Theorem report_rows_time_fields (w : World) (show_double : bool -> float -> string) :
  (forall r : TMeasureRecord,
      (GetTotalSec r <? 0)%float = true \/ numCall r = 0 ->
      out (PrintReport_row r) =
        [Setw 40; Str (name r); Setw 12; UInt (numCall r); Str nl] /\
      out (CsvReport_row r) =
        [Str (name r); Str ","; UInt (numCall r); Str ","; Str ("," +:+ nl)] /\
      render show_double O false (out (CsvReport_row r)) =
        name r +:+ "," +:+ pretty (Z.to_N (numCall r)) +:+ ",," +:+ nl) /\
  (forall r : TMeasureRecord,
      (GetTotalSec r <? 0)%float = false /\ numCall r <> 0 ->
      out (PrintReport_row r) =
        [Setw 40; Str (name r); Setw 12; UInt (numCall r);
         Setw 17; Str (TimeToStrNs (GetTotalSec r));
         Setw 17; Str (TimeToStrNs (GetTotalSec r / Z2double (numCall r))%float);
         Str nl] /\
      out (CsvReport_row r) =
        [Str (name r); Str ","; UInt (numCall r); Str ",";
         Fixed; Double (GetTotalSec r * 1e9)%float; Str ",";
         Fixed; Double (GetTotalSec r * 1e9 / Z2double (numCall r))%float;
         Str nl]) /\
  out (fst (PrintReport w)) =
    match records w with
    | [] => []
    | _ :: _ =>
        PrintReport_head ++
        flat_map (fun mr => match heap w !! mr with
                            | Some x => out (PrintReport_row x)
                            | None => []
                            end) (records w) ++
        [Str (dashes 86); Endl]
    end /\
  out (fst (CsvReport w)) =
    match records w with
    | [] => []
    | _ :: _ =>
        Str ("name,num_calls,total_ns,average_ns" +:+ nl) ::
        flat_map (fun mr => match heap w !! mr with
                            | Some x => out (CsvReport_row x)
                            | None => []
                            end) (records w)
    end.
Proof.
  split; [|split; [|split]].
  - intros r Hc.
    assert (E : (GetTotalSec r <? 0)%float || (numCall r =? 0) = true).
    { destruct Hc as [Hc|Hc]; [rewrite Hc; reflexivity|].
      rewrite Hc. apply orb_true_r. }
    unfold PrintReport_row, CsvReport_row. rewrite E. cbn [out write].
    split; [reflexivity | split; [reflexivity|]].
    cbn [render]. rewrite !pad_left_0. reflexivity.
  - intros r [Ht Hc].
    assert (E : (GetTotalSec r <? 0)%float || (numCall r =? 0) = false).
    { rewrite Ht. cbn. apply Z.eqb_neq. exact Hc. }
    unfold PrintReport_row, CsvReport_row. rewrite E. cbn [out]. split; reflexivity.
  - apply PrintReport_out.
  - apply CsvReport_out.
Qed.

Lemma row_divisors (r : TMeasureRecord) :
  Forall (fun d => divisor d <> 0) (divisions (PrintReport_row r)) /\
  Forall (fun d => divisor d <> 0) (divisions (CsvReport_row r)).
Proof.
  unfold PrintReport_row, CsvReport_row.
  destruct ((GetTotalSec r <? 0)%float || (numCall r =? 0)) eqn:E; cbn.
  - split; constructor.
  - apply orb_false_elim in E. destruct E as [_ E]. apply Z.eqb_neq in E.
    split; (constructor; [exact E | constructor]).
Qed.

Lemma Forall_flat_map_rows {X : Type} (P : X -> Prop) (row : TMeasureRecord -> list X)
  (h : list TMeasureRecord) (rs : list addr) :
  (forall r, Forall P (row r)) ->
  Forall P (flat_map (fun mr => match h !! mr with Some x => row x | None => [] end) rs).
Proof.
  intros Hrow. induction rs as [|mr rs IH]; cbn [flat_map]; [constructor|].
  apply Forall_app. split; [|exact IH].
  destruct (h !! mr); [apply Hrow | constructor].
Qed.

(** C9: in the text report and in the CSV report alike, every division by
    the call count that is evaluated has a divisor other than zero: a
    record with [numCall = 0] takes the branch without data, which divides
    nothing. *)
Theorem reports_never_divide_by_zero (w : World) :
  Forall (fun d => divisor d <> 0) (divisions (fst (PrintReport w))) /\
  Forall (fun d => divisor d <> 0) (divisions (fst (CsvReport w))) /\
  (forall r : TMeasureRecord,
      numCall r = 0 ->
      divisions (PrintReport_row r) = [] /\ divisions (CsvReport_row r) = []).
Proof.
  split; [|split].
  - rewrite (proj2 (PrintReport_out w)).
    apply Forall_flat_map_rows. intros r. apply row_divisors.
  - rewrite (proj2 (CsvReport_out w)).
    apply Forall_flat_map_rows. intros r. apply row_divisors.
  - intros r Hc. unfold PrintReport_row, CsvReport_row. rewrite Hc.
    rewrite orb_true_r. split; reflexivity.
Qed.

(** C10: with no registered record, [PrintReport] writes nothing, neither
    banner nor column headers nor rules, and [CsvReport] writes nothing, not
    even its header row. *)
Theorem empty_database_reports_nothing (w : World)
  (show_double : bool -> float -> string) :
  records w = [] ->
  out (fst (PrintReport w)) = [] /\
  out (fst (CsvReport w)) = [] /\
  render show_double O false (out (fst (PrintReport w))) = "" /\
  render show_double O false (out (fst (CsvReport w))) = "".
Proof.
  intros Hrs.
  rewrite (proj1 (PrintReport_out w)), (proj1 (CsvReport_out w)), Hrs.
  repeat split.
Qed.

End ReportFacts.

Lemma empty_database_reports_nothing_witness :
  out (fst (PrintReport (B := DummyMeasureBackend) empty_world)) = [] /\
  out (fst (CsvReport (B := DummyMeasureBackend) empty_world)) = [].
Proof.
  destruct (empty_database_reports_nothing (B := DummyMeasureBackend) empty_world
              (fun _ _ => ""%string) eq_refl) as (H1 & H2 & _).
  split; [exact H1 | exact H2].
Defined.

(** C4, as stated, fails on a record of the do-nothing backend that was
    measured once: its total is zero seconds, hence non-positive, and its
    rows carry the time fields all the same. *)
Lemma zero_total_prints_time_fields :
  let r := rec (successive_scopes (B := DummyMeasureBackend) 1
                  {| rec := TMeasureRecord_init "warm up"; reads := 0 |}) in
  spec_no_data r = true /\
  out (PrintReport_row r) =
    [Setw 40; Str "warm up"; Setw 12; UInt 1;
     Setw 17; Str "0"; Setw 17; Str "0"; Str nl] /\
  out (CsvReport_row r) =
    [Str "warm up"; Str ","; UInt 1; Str ",";
     Fixed; Double 0; Str ","; Fixed; Double 0; Str nl] /\
  setw_fields (out (PrintReport_row r)) = 4%nat /\
  double_fields (out (CsvReport_row r)) = 2%nat.
Proof. vm_compute. repeat split. Qed.

(** ** The operations at work on the do-nothing backend *)

(** Two dynamic records, the first asked for twice, in the CSV report. *)
Example dynamic_records_in_csv :
  let w := snd (GetOrAddDynamicRecords (B := DummyMeasureBackend)
                  ["X"; "X"; "Y"]%string empty_world) in
  render (fun _ _ => ""%string) O false (out (fst (CsvReport w))) =
  ("name,num_calls,total_ns,average_ns" +:+ nl +:+ "X,0,," +:+ nl +:+ "Y,0,," +:+ nl)%string.
Proof. vm_compute. reflexivity. Qed.

(** One static record, registered under the mutex and reset without it. *)
Example ResetAll_after_registration :
  log (ResetAll (snd (construct (B := DummyMeasureBackend) "X" true empty_world))) =
  [Acquire DatabaseMutex; PushBack O; Release DatabaseMutex; Reset O] /\
  log (snd (PrintReport (snd (construct (B := DummyMeasureBackend) "X" true empty_world)))) =
  [Acquire DatabaseMutex; PushBack O; Release DatabaseMutex; Visit O].
Proof. vm_compute. split; reflexivity. Qed.

(** * More properties *)

(** ** FormatWithSeparator *)

Lemma append_cons (x : ascii) (a b : string) : String x a +:+ b = String x (a +:+ b).
Proof. reflexivity. Qed.

Lemma append_nil_l (b : string) : "" +:+ b = b.
Proof. reflexivity. Qed.

Lemma append_assoc (a b c : string) : (a +:+ b) +:+ c = a +:+ (b +:+ c).
Proof.
  induction a as [|x a IH]; [reflexivity|].
  rewrite !append_cons, IH. reflexivity.
Qed.

Lemma append_nil_r (a : string) : a +:+ "" = a.
Proof.
  induction a as [|x a IH]; [reflexivity|]. rewrite append_cons, IH. reflexivity.
Qed.

Lemma length_append (a b : string) :
  String.length (a +:+ b) = (String.length a + String.length b)%nat.
Proof.
  induction a as [|x a IH]; [reflexivity|]. rewrite append_cons. cbn. rewrite IH. reflexivity.
Qed.

Lemma substring_whole (s : string) : substring 0 (String.length s) s = s.
Proof. induction s as [|x s IH]; cbn; [reflexivity | rewrite IH; reflexivity]. Qed.

Lemma substring_split (s : string) :
  forall n : nat, substring 0 n s +:+ substring n (String.length s - n) s = s.
Proof.
  induction s as [|x s IH]; intros [|n]; cbn [substring String.length Nat.sub];
    try reflexivity.
  - rewrite append_nil_l, substring_whole. reflexivity.
  - rewrite append_cons, IH. reflexivity.
Qed.

Lemma substring_prefix (p q : string) : substring 0 (String.length p) (p +:+ q) = p.
Proof.
  induction p as [|x p IH]; [destruct q; reflexivity|].
  rewrite append_cons. cbn. rewrite IH. reflexivity.
Qed.

Lemma substring_suffix (p q : string) :
  substring (String.length p) (String.length q) (p +:+ q) = q.
Proof.
  induction p as [|x p IH]; [apply substring_whole|].
  rewrite append_cons. cbn. exact IH.
Qed.

Lemma string_insert_append (p q : string) (c : ascii) :
  string_insert (String.length p) c (p +:+ q) = p +:+ String c q.
Proof.
  unfold string_insert. rewrite substring_prefix, length_append.
  replace (String.length p + String.length q - String.length p)%nat
    with (String.length q) by lia.
  rewrite substring_suffix. reflexivity.
Qed.

Lemma split_last3 (s : string) :
  (3 < String.length s)%nat ->
  exists p g, s = p +:+ g /\ String.length g = 3%nat /\ (1 <= String.length p)%nat.
Proof.
  induction s as [|x s IH]; cbn; intros H; [lia|].
  destruct (Nat.eq_dec (String.length s) 3%nat) as [E|Hne].
  - exists (String x ""), s. cbn. split; [reflexivity | split; [exact E | lia]].
  - destruct IH as (p & g & -> & Hg & Hp); [lia|].
    exists (String x p), g. cbn. split; [reflexivity | split; [exact Hg | lia]].
Qed.

Lemma insert_separators_done (fuel : nat) (n : Z) (sep : ascii) (s : string) :
  n <= 0 -> insert_separators fuel n sep s = s.
Proof.
  intros Hn. destruct fuel as [|f]; cbn; [reflexivity|].
  destruct (Z.ltb_spec 0 n); [lia | reflexivity].
Qed.

Lemma join_snoc (f : string -> string) (l : list string) (g : string) :
  join (map f (l ++ [g])) = join (map f l) +:+ f g.
Proof.
  induction l as [|x l IH]; cbn [app map join fold_right].
  - apply append_nil_r.
  - fold (join (map f (l ++ [g]))). fold (join (map f l)).
    rewrite IH, append_assoc. reflexivity.
Qed.

Lemma insert_separators_groups (sep : ascii) (fuel : nat) :
  forall pre tail : string,
    (1 <= String.length pre)%nat ->
    (String.length pre <= 3 * fuel)%nat ->
    exists (head : string) (groups : list string),
      pre = head +:+ join groups /\
      Forall (fun g => String.length g = 3%nat) groups /\
      (1 <= String.length head <= 3)%nat /\
      insert_separators fuel (Z.of_nat (String.length pre)) sep (pre +:+ tail) =
      head +:+ join (map (String sep) groups) +:+ String sep tail.
Proof.
  induction fuel as [|f IH]; intros pre tail H1 Hf; [lia|].
  cbn [insert_separators].
  destruct (Z.ltb_spec 0 (Z.of_nat (String.length pre))) as [_|]; [|lia].
  rewrite Nat2Z.id, string_insert_append.
  destruct (le_lt_dec (String.length pre) 3%nat) as [Hle|Hgt].
  - exists pre, []. cbn [join fold_right map]. rewrite append_nil_r.
    rewrite insert_separators_done by lia. repeat split; [constructor | lia | lia].
  - destruct (split_last3 pre Hgt) as (p & g & -> & Hg & Hp).
    rewrite length_append, Hg in *.
    replace (Z.of_nat (String.length p + 3) - 3) with (Z.of_nat (String.length p)) by lia.
    rewrite append_assoc.
    destruct (IH p (g +:+ String sep tail) Hp ltac:(lia)) as (head & groups & -> & Hall & Hh & Hres).
    exists head, (groups ++ [g]). 
    rewrite Hres. repeat split.
    + rewrite <- (map_id (groups ++ [g])), join_snoc, map_id, append_assoc. reflexivity.
    + apply Forall_app. split; [exact Hall | constructor; [exact Hg | constructor]].
    + lia.
    + lia.
    + rewrite join_snoc. rewrite !append_assoc. reflexivity.
Qed.

Lemma pretty_N_go_length (x : N) :
  forall s : string, (String.length s <= String.length (pretty_N_go x s))%nat.
Proof.
  induction (N.lt_wf_0 x) as [x _ IH]; intros s.
  destruct (N.eq_dec x 0%N) as [->|Hx]; [rewrite pretty_N_go_0; lia|].
  rewrite pretty_N_go_step by lia.
  etrans; [|apply IH; apply N.div_lt; lia]. cbn. lia.
Qed.

Lemma pretty_N_nonempty (x : N) : (1 <= String.length (pretty x))%nat.
Proof.
  unfold pretty, pretty_N. destruct (decide (x = 0%N)) as [->|Hx]; [cbn; lia|].
  rewrite pretty_N_go_step by lia.
  etrans; [|apply pretty_N_go_length]. cbn. lia.
Qed.

Lemma pretty_N_char_digit (x : N) : is_digit (pretty_N_char x) = true.
Proof. unfold pretty_N_char. repeat case_match; reflexivity. Qed.

Lemma pretty_N_go_digits (x : N) :
  forall s : string, all_digits s = true -> all_digits (pretty_N_go x s) = true.
Proof.
  induction (N.lt_wf_0 x) as [x _ IH]; intros s Hs.
  destruct (N.eq_dec x 0%N) as [->|Hx]; [rewrite pretty_N_go_0; exact Hs|].
  rewrite pretty_N_go_step by lia.
  apply IH; [apply N.div_lt; lia|].
  cbn [all_digits]. rewrite pretty_N_char_digit, Hs. reflexivity.
Qed.

Lemma pretty_N_digits (x : N) : all_digits (pretty x) = true.
Proof.
  unfold pretty, pretty_N. destruct (decide (x = 0%N)); [reflexivity|].
  apply pretty_N_go_digits. reflexivity.
Qed.

Lemma strip_append (c : ascii) (a b : string) : strip c (a +:+ b) = strip c a +:+ strip c b.
Proof.
  induction a as [|x a IH]; [reflexivity|].
  rewrite append_cons. cbn [strip]. destruct (Ascii.eqb x c); [exact IH|].
  rewrite append_cons, IH. reflexivity.
Qed.

Lemma strip_string_insert (c : ascii) (n : nat) (s : string) :
  strip c (string_insert n c s) = strip c s.
Proof.
  unfold string_insert. rewrite strip_append. cbn [strip]. rewrite Ascii.eqb_refl.
  rewrite <- strip_append, substring_split. reflexivity.
Qed.

Lemma strip_insert_separators (sep : ascii) (fuel : nat) :
  forall (n : Z) (s : string), strip sep (insert_separators fuel n sep s) = strip sep s.
Proof.
  induction fuel as [|f IH]; intros n s; cbn [insert_separators]; [reflexivity|].
  destruct (0 <? n); [|reflexivity].
  rewrite IH. apply strip_string_insert.
Qed.

Lemma strip_digits (c : ascii) (s : string) :
  is_digit c = false -> all_digits s = true -> strip c s = s.
Proof.
  intros Hc. induction s as [|x s IH]; cbn [all_digits strip]; [reflexivity|].
  intros H. apply andb_true_iff in H. destruct H as [Hx Hs].
  destruct (Ascii.eqb_spec x c) as [->|_]; [congruence|].
  rewrite IH by exact Hs. reflexivity.
Qed.

(** X1: [FormatWithSeparator] writes the decimal digits of the number
    unchanged and in order, as a leading group of one to three digits
    followed by groups of exactly three, each preceded by the separator. *)
Theorem FormatWithSeparator_groups (num : Z) (separator : ascii) :
  exists (head : string) (groups : list string),
    FormatWithSeparator num separator = head +:+ join (map (String separator) groups) /\
    pretty (Z.to_N num) = head +:+ join groups /\
    Forall (fun g => String.length g = 3%nat) groups /\
    (1 <= String.length head <= 3)%nat.
Proof.
  unfold FormatWithSeparator.
  pose proof (pretty_N_nonempty (Z.to_N num)) as Hne.
  set (s := pretty (Z.to_N num)) in *.
  destruct (le_lt_dec (String.length s) 3%nat) as [Hle|Hgt].
  - exists s, []. rewrite insert_separators_done by lia.
    cbn [map join fold_right]. rewrite append_nil_r.
    repeat split; [constructor | lia | lia].
  - destruct (split_last3 s Hgt) as (p & g & E & Hg & Hp).
    rewrite E, length_append, Hg.
    replace (Z.of_nat (String.length p + 3) - 3) with (Z.of_nat (String.length p)) by lia.
    destruct (insert_separators_groups separator (String.length p + 3) p g Hp ltac:(lia))
      as (head & groups & Ep & Hall & Hh & Hres).
    exists head, (groups ++ [g]). rewrite Hres. repeat split.
    + rewrite join_snoc. reflexivity.
    + rewrite Ep, <- (map_id (groups ++ [g])), join_snoc, map_id, append_assoc. reflexivity.
    + apply Forall_app. split; [exact Hall | constructor; [exact Hg | constructor]].
    + lia.
    + lia.
Qed.

(** X2: when the separator is not a digit, deleting it from the result of
    [FormatWithSeparator] gives the decimal form of the number back, so
    that different numbers are formatted differently. *)
Theorem FormatWithSeparator_strip (num : Z) (separator : ascii) :
  is_digit separator = false ->
  strip separator (FormatWithSeparator num separator) = pretty (Z.to_N num) /\
  (forall num' : Z,
      0 <= num -> 0 <= num' ->
      FormatWithSeparator num separator = FormatWithSeparator num' separator ->
      num = num').
Proof.
  intros Hsep.
  assert (Hstrip : forall z, strip separator (FormatWithSeparator z separator) = pretty (Z.to_N z)).
  { intros z. unfold FormatWithSeparator. rewrite strip_insert_separators.
    apply strip_digits; [exact Hsep | apply pretty_N_digits]. }
  split; [apply Hstrip|].
  intros num' H0 H0' E.
  apply (f_equal (strip separator)) in E. rewrite !Hstrip in E.
  apply (inj pretty) in E. lia.
Qed.

Lemma FormatWithSeparator_strip_witness :
  strip "'"%char (FormatWithSeparator 12345678 "'"%char) = "12345678"%string.
Proof.
  exact (proj1 (FormatWithSeparator_strip 12345678 "'"%char eq_refl)).
Defined.

(** ** The heading of the text report *)





(** ** The do-nothing backend and the time-stamp counter *)

Lemma dummy_total_zero (l : list Z) :
  Forall (fun d => d = 0) l ->
  fold_left (diff_add (MeasureBackend := DummyMeasureBackend)) l 0 = 0.
Proof.
  induction l as [|d l IH]; intros H; [reflexivity|].
  inversion H as [|? ? Hd Hl]; subst. cbn [fold_left]. exact (IH Hl).
Qed.

(** X4: with the do-nothing backend a record never accumulates time:
    after any number of start/stop pairs on a record whose total is zero,
    the total is still zero ticks and zero seconds. *)
Theorem dummy_backend_measures_nothing (r : TMeasureRecord (H := DummyMeasureBackend))
  (k N : nat) :
  totalTime r = 0 ->
  let r' := rec (successive_scopes N {| rec := r; reads := k |}) in
  totalTime r' = 0 /\ GetTotalSec r' = 0%float.
Proof.
  intros Ht r'.
  assert (E : totalTime r' = 0).
  { destruct (successive_scopes_spec (B := DummyMeasureBackend) N {| rec := r; reads := k |})
      as (_ & Htot & _).
    subst r'. rewrite Htot. cbn [rec]. rewrite Ht. apply dummy_total_zero.
    unfold deltas. apply Forall_map. apply Forall_forall. intros i _. reflexivity. }
  split; [exact E|]. unfold GetTotalSec. rewrite E. reflexivity.
Qed.

Lemma dummy_backend_measures_nothing_witness :
  totalTime (rec (successive_scopes (B := DummyMeasureBackend) 5
                    {| rec := TMeasureRecord_init "warm up"; reads := 0 |})) = 0.
Proof.
  exact (proj1 (dummy_backend_measures_nothing (TMeasureRecord_init "warm up") 0 5 eq_refl)).
Defined.

Lemma wrap_u64_idemp (z : Z) : wrap_u64 (wrap_u64 z) = wrap_u64 z.
Proof. unfold wrap_u64. apply Z.mod_mod. lia. Qed.

Lemma wrap_u64_sub (a b : Z) : wrap_u64 (wrap_u64 a - wrap_u64 b) = wrap_u64 (a - b).
Proof. unfold wrap_u64. symmetry. apply Zminus_mod. Qed.

Lemma wrap_u64_add_r (a b : Z) : wrap_u64 (a + wrap_u64 b) = wrap_u64 (a + b).
Proof. unfold wrap_u64. apply Zplus_mod_idemp_r. Qed.

Lemma wrap_u64_add_l (a b : Z) : wrap_u64 (wrap_u64 a + b) = wrap_u64 (a + b).
Proof. unfold wrap_u64. apply Zplus_mod_idemp_l. Qed.

(** The cycles that elapse during the pairs, as the processor counts them. *)
Lemma rdtsc_fold (cycles : nat -> Z) (freq : Z) (l : list nat) :
  forall t : Z,
    wrap_u64 t = t ->
    fold_left (diff_add (MeasureBackend := RdtscBackend cycles freq))
              (map (delta (B := RdtscBackend cycles freq)) l) t =
    wrap_u64 (t + fold_right Z.add 0 (map (fun i => cycles (S i) - cycles i) l)).
Proof.
  induction l as [|i l IH]; intros t Ht; cbn [map fold_left fold_right].
  - rewrite Z.add_0_r. symmetry. exact Ht.
  - rewrite IH.
    + unfold diff_add, delta, tick_sub, GetTick, RdtscBackend.
      rewrite wrap_u64_sub, wrap_u64_add_r, wrap_u64_add_l. f_equal. lia.
    + apply wrap_u64_idemp.
Qed.

(** X5: with the time-stamp counter as the clock, the total of a record is
    the number of cycles that elapsed during its start/stop pairs, however
    often the 64-bit counter wrapped around in between, as long as that
    number itself is below [2^64]. *)
Theorem rdtsc_total_is_elapsed_cycles (cycles : nat -> Z) (freq : Z)
  (r : TMeasureRecord (H := RdtscBackend cycles freq)) (k N : nat) :
  let elapsed :=
    fold_right Z.add 0 (map (fun i => cycles (S (k + 2 * i)) - cycles (k + 2 * i)%nat) (seq 0 N)) in
  totalTime r = 0 ->
  0 <= elapsed < 2 ^ 64 ->
  totalTime (rec (successive_scopes N {| rec := r; reads := k |})) = elapsed.
Proof.
  intros elapsed Ht He.
  destruct (successive_scopes_spec (B := RdtscBackend cycles freq) N {| rec := r; reads := k |})
    as (_ & Htot & _).
  rewrite Htot. cbn [rec reads]. rewrite Ht. unfold deltas.
  rewrite <- (map_map (fun i => (k + 2 * i)%nat) (delta (B := RdtscBackend cycles freq))).
  rewrite rdtsc_fold by reflexivity.
  rewrite map_map, Z.add_0_l. apply wrap_u64_small. exact He.
Qed.

Lemma rdtsc_total_is_elapsed_cycles_witness :
  totalTime (rec (successive_scopes
                    (B := RdtscBackend (fun k => 2 ^ 64 - 10 + 25 * Z.of_nat k) 3200000000) 2
                    {| rec := TMeasureRecord_init "f"; reads := 0 |})) = 50.
Proof.
  exact (rdtsc_total_is_elapsed_cycles (fun k => 2 ^ 64 - 10 + 25 * Z.of_nat k) 3200000000
           (TMeasureRecord_init "f") 0 2 eq_refl ltac:(vm_compute; split; [discriminate | reflexivity])).
Defined.

(** ** Scopes out of their discipline *)

Section MisuseFacts.
Context `{B : MeasureBackend}.

Lemma ctor_below_zero (s : state MeasureRecordRSafe) :
  depth (rec s) < 0 ->
  MeasureScopeRSafe_ctor s =
  Some ({| rs_start := None |},
        {| rec := {| base := base (rec s); depth := depth (rec s) + 1 |}; reads := reads s |}).
Proof.
  intros Hd. unfold MeasureScopeRSafe_ctor.
  rewrite IncrementDepth_defined by (unfold INT32_MAX; lia). cbn.
  destruct (Z.eqb_spec (depth (rec s) + 1) 1) as [E|_]; [lia | reflexivity].
Qed.

Lemma dtor_below_zero (sc : MeasureScopeRSafe) (s : state MeasureRecordRSafe) :
  INT32_MIN < depth (rec s) <= 0 ->
  MeasureScopeRSafe_dtor sc s =
  Some {| rec := {| base := base (rec s); depth := depth (rec s) - 1 |}; reads := reads s |}.
Proof.
  intros Hd. unfold MeasureScopeRSafe_dtor.
  rewrite DecrementDepth_defined by lia. cbn.
  destruct (Z.eqb_spec (depth (rec s) - 1) 0) as [E|_]; [lia | reflexivity].
Qed.

(** X6: once the depth of a recursion-safe record is below zero, as after
    a [DecrementDepth] without its [IncrementDepth], scopes nested no
    deeper than the deficit measure nothing: they leave the counters, the
    depth and the clock as they were. *)
Theorem negative_depth_disables_scopes (c : calls) :
  forall s : state MeasureRecordRSafe,
    INT32_MIN <= depth (rec s) ->
    depth (rec s) + Z.of_nat (nesting c) <= 0 ->
    run_calls c s = Some s.
Proof.
  induction c as [|inner IHinner rest IHrest]; intros s Hmin Hd.
  - reflexivity.
  - cbn [nesting] in Hd.
    erewrite (run_calls_Scoped inner rest _ s _ _ s); cycle 1.
    + apply ctor_below_zero. lia.
    + apply IHinner; cbn; lia.
    + rewrite dtor_below_zero by (cbn; lia). cbn [rec depth base reads].
      replace (depth (rec s) + 1 - 1) with (depth (rec s)) by lia.
      destruct s as [[b d] k]. reflexivity.
    + apply IHrest; lia.
Qed.

Lemma scope_pair_plain (sc : TMeasureScope) (s s1 : state TMeasureRecord) :
  TMeasureScope_ctor s = (sc, s1) ->
  start sc = GetTick (reads s) /\ s1 = {| rec := rec s; reads := S (reads s) |}.
Proof. unfold TMeasureScope_ctor, Now. intros [= <- <-]. split; reflexivity. Qed.

Lemma run_calls_plain_spec (c : calls) :
  forall s : state TMeasureRecord,
    name (rec (run_calls_plain c s)) = name (rec s) /\
    reads (run_calls_plain c s) = (reads s + 2 * scopes c)%nat /\
    (scopes c <> O ->
     numCall (rec (run_calls_plain c s)) = wrap_u64 (numCall (rec s) + Z.of_nat (scopes c))) /\
    (scopes c = O -> run_calls_plain c s = s).
Proof.
  induction c as [|inner IHinner rest IHrest]; intros s.
  - cbn. repeat split; [lia | congruence].
  - cbn [run_calls_plain scopes]. unfold TMeasureScope_ctor, Now.
    set (s1 := {| rec := rec s; reads := S (reads s) |}).
    destruct (IHinner s1) as (Hn1 & Hr1 & Hc1 & Hz1).
    set (s2 := run_calls_plain inner s1) in *.
    set (s3 := TMeasureScope_dtor {| start := GetTick (reads s) |} s2).
    destruct (IHrest s3) as (Hn3 & Hr3 & Hc3 & Hz3).
    assert (Hs3n : name (rec s3) = name (rec s)) by (cbn; rewrite Hn1; reflexivity).
    assert (Hs3r : reads s3 = (reads s + 2 * scopes inner + 2)%nat)
      by (cbn; rewrite Hr1; cbn; lia).
    assert (Hs3c : numCall (rec s3) = wrap_u64 (numCall (rec s) + Z.of_nat (S (scopes inner)))).
    { cbn [s3 TMeasureScope_dtor StopMeasure rec numCall].
      destruct (Nat.eq_dec (scopes inner) O) as [E|E].
      - rewrite (Hz1 E), E. reflexivity.
      - rewrite (Hc1 E). cbn [s1 rec]. rewrite wrap_u64_add_l. f_equal. lia. }
    split; [|split; [|split]].
    + rewrite Hn3. exact Hs3n.
    + rewrite Hr3, Hs3r. lia.
    + intros _. destruct (Nat.eq_dec (scopes rest) O) as [E|E].
      * rewrite (Hz3 E), Hs3c, E. f_equal. lia.
      * rewrite (Hc3 E), Hs3c, wrap_u64_add_l. f_equal. lia.
    + discriminate.
Qed.

Lemma scopes_RecursiveFunction (level : nat) : scopes (RecursiveFunction level) = S level.
Proof.
  induction level as [|l IH]; [reflexivity|].
  cbn [RecursiveFunction scopes]. fold (RecursiveFunction l). rewrite IH. lia.
Qed.

(** X7: plain scopes are not recursion safe.  Nested on one record, every
    scope stops the timer: a run adds one call and two clock reads per
    scope, the nested ones included.  One invocation of
    [RecursiveFunction(level)] has [level + 1] scopes, and so counts
    [level + 1] calls where the recursion-safe scope counts one. *)
Theorem plain_scopes_count_every_level (c : calls) (s : state TMeasureRecord) :
  numCall (rec s) = 0 ->
  Z.of_nat (scopes c) < 2 ^ 64 ->
  numCall (rec (run_calls_plain c s)) = Z.of_nat (scopes c) /\
  reads (run_calls_plain c s) = (reads s + 2 * scopes c)%nat /\
  name (rec (run_calls_plain c s)) = name (rec s) /\
  (forall level : nat,
      scopes (RecursiveFunction level) = S level /\
      invocations (RecursiveFunction level) = 1%nat).
Proof.
  intros H0 Hc.
  destruct (run_calls_plain_spec c s) as (Hn & Hr & Hnum & Hz).
  split; [|split; [exact Hr | split; [exact Hn|]]].
  - destruct (Nat.eq_dec (scopes c) O) as [E|E].
    + rewrite (Hz E), E. exact H0.
    + rewrite (Hnum E), H0. apply wrap_u64_small. lia.
  - intros level. split; [apply scopes_RecursiveFunction|]. destruct level; reflexivity.
Qed.

End MisuseFacts.

Lemma negative_depth_disables_scopes_witness :
  run_calls (B := DummyMeasureBackend) (Scoped Done (Scoped Done Done))
            {| rec := {| base := TMeasureRecord_init "f"; depth := -1 |}; reads := 0 |} =
  Some {| rec := {| base := TMeasureRecord_init "f"; depth := -1 |}; reads := 0 |}.
Proof.
  apply (negative_depth_disables_scopes (B := DummyMeasureBackend)).
  - vm_compute. discriminate.
  - vm_compute. discriminate.
Defined.

Lemma plain_scopes_count_every_level_witness :
  numCall (rec (run_calls_plain (B := DummyMeasureBackend) (RecursiveFunction 9)
                  {| rec := TMeasureRecord_init "RecursiveFunction_1"; reads := 0 |})) = 10.
Proof.
  exact (proj1 (plain_scopes_count_every_level (B := DummyMeasureBackend) (RecursiveFunction 9)
                  {| rec := TMeasureRecord_init "RecursiveFunction_1"; reads := 0 |}
                  eq_refl eq_refl)).
Defined.

(** ** MeasureRecordTRSafe *)

Section ThreadFacts.
Context `{B : MeasureBackend}.

Lemma own_cons_eq {X : Type} (key : thread * addr) (x : X) (l : list (thread * addr * X)) :
  own key ((key, x) :: l) = x :: own key l.
Proof. unfold own. cbn [List.filter fst]. rewrite bool_decide_eq_true_2 by reflexivity. reflexivity. Qed.

Lemma own_cons_ne {X : Type} (key key' : thread * addr) (x : X) (l : list (thread * addr * X)) :
  key' <> key -> own key ((key', x) :: l) = own key l.
Proof.
  intros Hne. unfold own. cbn [List.filter fst].
  rewrite bool_decide_eq_false_2 by exact Hne. reflexivity.
Qed.

(** A step on the thread's own depth is the step of a private counter. *)
Lemma depth_step_TR_private (t : thread) (this : addr) (o : depth_op) (st : TRState)
  (b0 : TMeasureRecord) :
  match depth_step o {| base := b0; depth := default 0 (depths st !! (t, this)) |} with
  | Some (b, r1) =>
      exists st1,
        depth_step_TR t this o st = Some (b, st1) /\
        base r1 = b0 /\
        depths st1 !! (t, this) = Some (depth r1) /\
        (forall key, key <> (t, this) -> depths st1 !! key = depths st !! key) /\
        record_log st1 = record_log st ++ [LockRecord this; UnlockRecord this]
  | None => depth_step_TR t this o st = None
  end.
Proof.
  destruct o; cbn [depth_step depth_step_TR];
    unfold IncrementDepth, DecrementDepth, IncrementDepthTR, DecrementDepthTR, Depth;
    cbn [depth base depths record_emit];
    match goal with |- context [?d =? ?m] => destruct (d =? m) end;
    try reflexivity;
    (eexists; split; [reflexivity|]; cbn [depth base depths record_log set_Depth record_emit];
     split; [reflexivity|]; split; [apply lookup_insert_eq|]; split;
     [intros key Hne; rewrite !lookup_insert_ne by congruence; reflexivity
     | rewrite <- app_assoc; reflexivity]).
Qed.

(** X8: the depth that [MeasureRecordTRSafe] keeps for a thread and a
    record is a private counter.  Whenever each thread's own operations on
    each record are defined taken alone, their interleaving is defined,
    and every operation gets the answer and leaves the depth that it gets
    in the run of its thread's operations on that record alone, whatever
    the other threads, and the same thread on other records, do in
    between. *)
Theorem thread_depths_are_private (b0 : TMeasureRecord)
  (ops : list (thread * addr * depth_op)) :
  forall st : TRState,
    (forall key : thread * addr,
        is_Some (depth_run (own key ops)
                   {| base := b0; depth := default 0 (depths st !! key) |})) ->
    exists tr st',
      depth_run_TR ops st = Some (tr, st') /\
      forall key : thread * addr,
      exists r',
        depth_run (own key ops) {| base := b0; depth := default 0 (depths st !! key) |} =
          Some (own key tr, r') /\
        depth r' = default 0 (depths st' !! key).
Proof.
  induction ops as [|[[t this] o] ops IH]; intros st Hdef.
  - exists [], st. split; [reflexivity|]. intros key. eexists. split; reflexivity.
  - pose proof (Hdef (t, this)) as H0. rewrite own_cons_eq in H0. cbn [depth_run] in H0.
    pose proof (depth_step_TR_private t this o st b0) as Hstep.
    destruct (depth_step o {| base := b0; depth := default 0 (depths st !! (t, this)) |})
      as [[b r1]|] eqn:Eo; [|destruct H0 as [x Hx]; discriminate].
    destruct Hstep as (st1 & Hst1 & Hb & Hown & Hother & _).
    assert (Er1 : r1 = {| base := b0; depth := default 0 (depths st1 !! (t, this)) |}).
    { rewrite Hown. destruct r1 as [b1 d1]. cbn in *. subst b1. reflexivity. }
    destruct (IH st1) as (tr & st' & Hrun & Hkeys).
    { intros key. destruct (decide (key = (t, this))) as [->|Hne].
      - rewrite <- Er1. cbn [mbind option_bind] in H0.
        destruct (depth_run (own (t, this) ops) r1) as [[tr1 r2]|]; [eexists; reflexivity|].
        destruct H0 as [x Hx]; discriminate.
      - rewrite (Hother key Hne). specialize (Hdef key).
        rewrite own_cons_ne in Hdef by congruence. exact Hdef. }
    exists (((t, this), (b, default 0 (depths st1 !! (t, this)))) :: tr), st'.
    split.
    + cbn [depth_run_TR fst snd]. rewrite Hst1. cbn [mbind option_bind].
      rewrite Hrun. reflexivity.
    + intros key. destruct (decide (key = (t, this))) as [->|Hne].
      * destruct (Hkeys (t, this)) as (r' & Hr' & Hd'). rewrite <- Er1 in Hr'.
        exists r'. split; [|exact Hd'].
        rewrite !own_cons_eq. cbn [depth_run]. rewrite Eo. cbn [mbind option_bind].
        rewrite Hr'. cbn [mbind option_bind]. rewrite Hown. reflexivity.
      * destruct (Hkeys key) as (r' & Hr' & Hd'). rewrite (Hother key Hne) in Hr'.
        exists r'. split; [|exact Hd'].
        rewrite !own_cons_ne by congruence. exact Hr'.
Qed.

End ThreadFacts.

Lemma thread_depths_are_private_witness :
  exists tr st' r',
    depth_run_TR [((1, 0), Inc); ((2, 0), Inc); ((1, 0), Dec); ((2, 0), Dec)]%nat
                 {| depths := ∅; record_log := [] |} = Some (tr, st') /\
    depth_run [Inc; Dec] (MeasureRecordRSafe_init (B := DummyMeasureBackend) "f") =
      Some (own (2, 0)%nat tr, r').
Proof.
  destruct (thread_depths_are_private (B := DummyMeasureBackend) (TMeasureRecord_init "f")
              [((1, 0), Inc); ((2, 0), Inc); ((1, 0), Dec); ((2, 0), Dec)]%nat
              {| depths := ∅; record_log := [] |}) as (tr & st' & Hrun & Hkeys).
  - intros key. cbn [depths]. rewrite lookup_empty. cbn [default].
    destruct (decide ((1, 0)%nat = key)) as [<-|H1]; [eexists; reflexivity|].
    destruct (decide ((2, 0)%nat = key)) as [<-|H2]; [eexists; reflexivity|].
    rewrite !own_cons_ne by assumption. eexists. reflexivity.
  - destruct (Hkeys (2, 0)%nat) as (r' & Hr' & _).
    exists tr, st', r'. split; [exact Hrun | exact Hr'].
Defined.

(** ** Construction, lookup and reports together *)

Section RegistryFacts.
Context `{B : MeasureBackend}.

Lemma name_is_app (h : list TMeasureRecord) (r : TMeasureRecord) (n : string) (a : addr) :
  (a < length h)%nat -> name_is (h ++ [r]) n a = name_is h n a.
Proof. intros Ha. unfold name_is. rewrite lookup_app_l by exact Ha. reflexivity. Qed.

Lemma find_record_grown (h : list TMeasureRecord) (r : TMeasureRecord) (n : string)
  (rs : list addr) :
  (forall a : addr, a ∈ rs -> (a < length h)%nat) ->
  find_record (h ++ [r]) n rs = find_record h n rs.
Proof.
  induction rs as [|a rs IH]; intros Hrs; cbn [find_record]; [reflexivity|].
  rewrite name_is_app by (apply Hrs; apply elem_of_cons; left; reflexivity).
  rewrite IH; [reflexivity|]. intros a' Ha'. apply Hrs. apply elem_of_cons. right. exact Ha'.
Qed.

Lemma find_record_registered (h : list TMeasureRecord) (r : TMeasureRecord) (n : string)
  (rs : list addr) :
  (forall a : addr, a ∈ rs -> (a < length h)%nat) ->
  find_record (h ++ [r]) n (rs ++ [length h]) =
  match find_record h n rs with
  | Some a => Some a
  | None => if String.eqb (name r) n then Some (length h) else None
  end.
Proof.
  induction rs as [|a rs IH]; intros Hrs; cbn [find_record app].
  - unfold name_is. rewrite list_lookup_middle by reflexivity. reflexivity.
  - rewrite name_is_app by (apply Hrs; apply elem_of_cons; left; reflexivity).
    destruct (name_is h n a); [reflexivity|].
    apply IH. intros a' Ha'. apply Hrs. apply elem_of_cons. right. exact Ha'.
Qed.

(** X9: a record constructed with [autoRegister] is found under its name,
    unless a record registered earlier bears the same name: then that one
    is still the one found.  Lookups of other names are not affected. *)
Theorem construct_registers_behind_earlier_names (w : World) (n : string) :
  wf w ->
  fst (construct n true w) = length (heap w) /\
  heap (snd (construct n true w)) !! length (heap w) =
    Some {| name := n; totalTime := diff_zero; numCall := 0 |} /\
  records (snd (construct n true w)) = records w ++ [length (heap w)] /\
  FindMeasureRecord n (snd (construct n true w)) =
    Some (default (length (heap w)) (FindMeasureRecord n w)) /\
  (forall n' : string,
      n' <> n ->
      FindMeasureRecord n' (snd (construct n true w)) = FindMeasureRecord n' w).
Proof.
  intros (Hrec & _ & _). unfold construct. cbn [fst snd]. rewrite AddRecord_spec.
  unfold FindMeasureRecord, set_heap. cbn [heap records].
  split; [reflexivity|]. split; [apply list_lookup_middle; reflexivity|].
  split; [reflexivity|]. split.
  - rewrite find_record_registered by exact Hrec.
    destruct (find_record (heap w) n (records w)); [reflexivity|].
    cbn [name TMeasureRecord_init]. rewrite String.eqb_refl. reflexivity.
  - intros n' Hne. rewrite find_record_registered by exact Hrec.
    destruct (find_record (heap w) n' (records w)); [reflexivity|].
    cbn [name TMeasureRecord_init].
    destruct (String.eqb_spec n n') as [E|_]; [congruence | reflexivity].
Qed.

Lemma flat_map_ext_elem {X Y : Type} (f g : X -> list Y) (l : list X) :
  (forall x, x ∈ l -> f x = g x) -> flat_map f l = flat_map g l.
Proof.
  induction l as [|x l IH]; intros H; cbn [flat_map]; [reflexivity|].
  rewrite (H x) by (apply elem_of_cons; left; reflexivity).
  rewrite IH; [reflexivity|]. intros y Hy. apply H. apply elem_of_cons. right. exact Hy.
Qed.

(** X10: a record constructed without [autoRegister] stays out of the
    Database: the record sequence is as before, no name lookup finds it,
    and both reports read as before. *)
Theorem construct_unregistered_is_invisible (w : World) (n : string) :
  wf w ->
  fst (construct n false w) = length (heap w) /\
  heap (snd (construct n false w)) = heap w ++ [TMeasureRecord_init n] /\
  records (snd (construct n false w)) = records w /\
  dynamicRecords (snd (construct n false w)) = dynamicRecords w /\
  log (snd (construct n false w)) = log w /\
  (forall n' : string, FindMeasureRecord n' (snd (construct n false w)) = FindMeasureRecord n' w) /\
  out (fst (PrintReport (snd (construct n false w)))) = out (fst (PrintReport w)) /\
  out (fst (CsvReport (snd (construct n false w)))) = out (fst (CsvReport w)).
Proof.
  intros (Hrec & _ & _). unfold construct. cbn [fst snd].
  repeat (split; [reflexivity|]). split; [|split].
  - intros n'. unfold FindMeasureRecord, set_heap. cbn [heap records].
    apply find_record_grown. exact Hrec.
  - rewrite (proj1 (PrintReport_out _)), (proj1 (PrintReport_out w)).
    unfold set_heap. cbn [heap records].
    destruct (records w) as [|a rs] eqn:E; [reflexivity|]. rewrite <- E in *.
    do 2 f_equal. apply flat_map_ext_elem. intros a' Ha'.
    rewrite lookup_app_l by (apply Hrec; exact Ha'). reflexivity.
  - rewrite (proj1 (CsvReport_out _)), (proj1 (CsvReport_out w)).
    unfold set_heap. cbn [heap records].
    destruct (records w) as [|a rs] eqn:E; [reflexivity|]. rewrite <- E in *.
    f_equal. apply flat_map_ext_elem. intros a' Ha'.
    rewrite lookup_app_l by (apply Hrec; exact Ha'). reflexivity.
Qed.

(** X11: the reports change no record and no registry, and take nothing
    away: a report printed again reads the same. *)
Theorem reports_are_read_only (w : World) :
  heap (snd (PrintReport w)) = heap w /\
  records (snd (PrintReport w)) = records w /\
  dynamicRecords (snd (PrintReport w)) = dynamicRecords w /\
  heap (snd (CsvReport w)) = heap w /\
  records (snd (CsvReport w)) = records w /\
  dynamicRecords (snd (CsvReport w)) = dynamicRecords w /\
  out (fst (PrintReport (snd (PrintReport w)))) = out (fst (PrintReport w)) /\
  out (fst (CsvReport (snd (CsvReport w)))) = out (fst (CsvReport w)).
Proof.
  assert (HP : heap (snd (PrintReport w)) = heap w /\
               records (snd (PrintReport w)) = records w /\
               dynamicRecords (snd (PrintReport w)) = dynamicRecords w).
  { unfold PrintReport. destruct (records w) as [|a rs] eqn:E.
    - cbn [snd]. rewrite E. repeat split.
    - destruct (for_records_spec PrintReport_row (a :: rs) w) as (Hh & Hr & Hd & _).
      destruct (for_records PrintReport_row (a :: rs) w) as [rows w'].
      cbn [fst snd] in *. rewrite Hh, Hr, Hd, E. repeat split. }
  assert (HC : heap (snd (CsvReport w)) = heap w /\
               records (snd (CsvReport w)) = records w /\
               dynamicRecords (snd (CsvReport w)) = dynamicRecords w).
  { unfold CsvReport, lock_guard, GetRecords, GetMutex.
    change (records (emit (Acquire DatabaseMutex) w)) with (records w).
    destruct (records w) as [|a rs] eqn:E.
    - cbn [snd emit heap records dynamicRecords]. rewrite E. repeat split.
    - destruct (for_records_spec CsvReport_row (a :: rs) (emit (Acquire DatabaseMutex) w))
        as (Hh & Hr & Hd & _).
      destruct (for_records CsvReport_row (a :: rs) (emit (Acquire DatabaseMutex) w))
        as [rows w'].
      cbn [fst snd emit heap records dynamicRecords] in *. rewrite Hh, Hr, Hd, E.
      repeat split. }
  destruct HP as (P1 & P2 & P3). destruct HC as (C1 & C2 & C3).
  repeat (split; [assumption|]). split.
  - rewrite (proj1 (PrintReport_out _)), (proj1 (PrintReport_out w)), P1, P2. reflexivity.
  - rewrite (proj1 (CsvReport_out _)), (proj1 (CsvReport_out w)), C1, C2. reflexivity.
Qed.

End RegistryFacts.

Lemma construct_registers_behind_earlier_names_witness :
  FindMeasureRecord (B := DummyMeasureBackend) "X"
    (snd (construct "X" true (snd (construct "X" true empty_world)))) = Some 0%nat.
Proof.
  assert (Hwf : wf (snd (construct (B := DummyMeasureBackend) "X" true empty_world)))
    by (apply wf_construct, wf_empty_world).
  exact (proj1 (proj2 (proj2 (proj2
           (construct_registers_behind_earlier_names
              (snd (construct (B := DummyMeasureBackend) "X" true empty_world)) "X" Hwf))))).
Defined.

Lemma construct_unregistered_is_invisible_witness :
  FindMeasureRecord (B := DummyMeasureBackend) "X" (snd (construct "X" false empty_world)) = None.
Proof.
  exact (proj1 (proj2 (proj2 (proj2 (proj2 (proj2
           (construct_unregistered_is_invisible (B := DummyMeasureBackend)
              empty_world "X" wf_empty_world)))))) "X"%string).
Defined.

Section ResetFacts.
Context `{B : MeasureBackend}.

Lemma render_no_data_rows (show_double : bool -> float -> string)
  (h : list TMeasureRecord) (rs : list addr) :
  (forall (a : addr) (r : TMeasureRecord), a ∈ rs -> h !! a = Some r -> numCall r = 0) ->
  render show_double O false
    (flat_map (fun mr => match h !! mr with
                         | Some x => out (CsvReport_row x)
                         | None => []
                         end) rs) =
  join (map (fun mr => match h !! mr with
                       | Some x => name x +:+ ",0,," +:+ nl
                       | None => ""
                       end) rs).
Proof.
  induction rs as [|a rs IH]; intros Hz; cbn [flat_map map join fold_right]; [reflexivity|].
  fold (join (map (fun mr => match h !! mr with
                             | Some x => name x +:+ ",0,," +:+ nl
                             | None => ""
                             end) rs)).
  rewrite <- IH by (intros a' r' Ha'; apply Hz; apply elem_of_cons; right; exact Ha').
  destruct (h !! a) as [r|] eqn:E; [|reflexivity].
  unfold CsvReport_row.
  rewrite (Hz a r) by (try (apply elem_of_cons; left; reflexivity); exact E).
  rewrite orb_true_r. cbn [out write app render]. rewrite !pad_left_0.
  rewrite !append_assoc. reflexivity.
Qed.

(** X12: right after [ResetAll], the CSV report is its header followed by
    one line [name,0,,] for every registered record, in registration
    order: no record has data. *)
Theorem CsvReport_after_ResetAll (w : World) (show_double : bool -> float -> string) :
  render show_double O false (out (fst (CsvReport (ResetAll w)))) =
  match records w with
  | [] => ""
  | _ :: _ =>
      "name,num_calls,total_ns,average_ns" +:+ nl +:+
      join (map (fun mr => match heap w !! mr with
                           | Some x => name x +:+ ",0,," +:+ nl
                           | None => ""
                           end) (records w))
  end.
Proof.
  rewrite (proj1 (CsvReport_out _)).
  unfold ResetAll.
  destruct (ResetAll_fold (records w) w) as (Hr & _ & _ & Hh). rewrite Hr, Hh.
  destruct (records w) as [|a0 rs0] eqn:E; [reflexivity|]. rewrite <- E.
  cbn [render]. rewrite pad_left_0. rewrite append_assoc. f_equal. 
  rewrite render_no_data_rows.
  - apply (f_equal (String.append nl)), (f_equal join).
    apply map_ext_in. intros a Ha. rewrite alter_all_lookup.
    rewrite decide_True by (apply list_elem_of_In; exact Ha).
    destruct (heap w !! a); reflexivity.
  - intros a r Ha Hlook. rewrite alter_all_lookup, decide_True in Hlook by exact Ha.
    destruct (heap w !! a) as [r0|]; [|discriminate].
    cbn in Hlook. injection Hlook as <-. reflexivity.
Qed.

(** X13: measuring after [ResetAll] starts from nothing.  [N] start/stop
    pairs on a registered record, made after a reset, leave it with
    [numCall = N] and with the sum of the [N] deltas as its total,
    whatever it held before the reset; the other records, the record
    sequence and the name lookups stay as the reset left them. *)
Theorem measuring_after_ResetAll (w : World) (a : addr) (r : TMeasureRecord) (N k : nat) :
  heap w !! a = Some r ->
  a ∈ records w ->
  Z.of_nat N < 2 ^ 64 ->
  exists w' : World,
    scopes_at a N k (ResetAll w) = Some (w', (k + 2 * N)%nat) /\
    heap w' !! a = Some {| name := name r;
                           totalTime := fold_left diff_add (deltas k N) diff_zero;
                           numCall := Z.of_nat N |} /\
    (forall a' : addr, a' <> a -> heap w' !! a' = heap (ResetAll w) !! a') /\
    records w' = records w /\
    (forall n : string, FindMeasureRecord n w' = FindMeasureRecord n w).
Proof.
  intros Hr Ha HN.
  destruct (ResetAll_fold (records w) w) as (Hrec & _ & _ & Hh).
  assert (Hlook : forall a', heap (ResetAll w) !! a' =
                             (if decide (a' ∈ records w) then reset_counters else id)
                               <$> heap w !! a').
  { intros a'. unfold ResetAll. rewrite Hh. apply alter_all_lookup. }
  assert (Hra : heap (ResetAll w) !! a = Some (reset_counters r)).
  { rewrite Hlook, Hr, decide_True by exact Ha. reflexivity. }
  destruct (successive_scopes_spec N {| rec := reset_counters r; reads := k |})
    as (Hn & Htot & Hreads & Hnum).
  set (s := successive_scopes N {| rec := reset_counters r; reads := k |}) in *.
  cbn [rec reads name totalTime numCall reset_counters] in Hn, Htot, Hreads, Hnum.
  assert (Hrs : rec s = {| name := name r;
                           totalTime := fold_left diff_add (deltas k N) diff_zero;
                           numCall := Z.of_nat N |}).
  { destruct (rec s) as [n0 t0 c0] eqn:Es. cbn in Hn, Htot, Hnum. subst n0 t0. f_equal.
    destruct N as [|N'].
    - subst s. apply (f_equal numCall) in Es. cbn in Es. symmetry. exact Es.
    - rewrite Hnum by discriminate. apply wrap_u64_small. lia. }
  exists (set_heap (<[a := rec s]> (heap (ResetAll w))) (ResetAll w)).
  assert (Hlt : (a < length (heap (ResetAll w)))%nat)
    by (apply lookup_lt_is_Some; rewrite Hra; eexists; reflexivity).
  split; [|split; [|split; [|split]]].
  - unfold scopes_at. rewrite Hra. cbn [mbind option_bind]. fold s. rewrite Hreads. reflexivity.
  - unfold set_heap. cbn [heap]. rewrite list_lookup_insert_eq by exact Hlt. rewrite Hrs. reflexivity.
  - intros a' Hne. unfold set_heap. cbn [heap].
    apply list_lookup_insert_ne. congruence.
  - unfold set_heap. cbn [records]. unfold ResetAll. exact Hrec.
  - intros n. unfold FindMeasureRecord, set_heap. cbn [heap records].
    unfold ResetAll at 2. rewrite Hrec.
    apply find_record_ext. intros a'. unfold name_is.
    destruct (decide (a' = a)) as [->|Hne].
    + rewrite list_lookup_insert_eq by exact Hlt. rewrite Hr, Hrs. reflexivity.
    + rewrite list_lookup_insert_ne by congruence. rewrite Hlook.
      destruct (heap w !! a') as [r'|]; [|reflexivity].
      destruct (decide (a' ∈ records w)); reflexivity.
Qed.

End ResetFacts.

Lemma measuring_after_ResetAll_witness :
  exists w' : World,
    scopes_at (B := DummyMeasureBackend) 0 3 0
      (ResetAll (snd (construct "R1" true empty_world))) = Some (w', 6%nat) /\
    heap w' !! 0%nat = Some {| name := "R1"; totalTime := 0; numCall := 3 |}.
Proof.
  destruct (measuring_after_ResetAll (B := DummyMeasureBackend)
              (snd (construct "R1" true empty_world)) 0 (TMeasureRecord_init "R1") 3 0)
    as (w' & H1 & H2 & _).
  - reflexivity.
  - apply list_elem_of_In. vm_compute. left. reflexivity.
  - reflexivity.
  - exists w'. split; [exact H1 | exact H2].
Defined.

Section DynamicOnlyFacts.
Context `{B : MeasureBackend}.




End DynamicOnlyFacts.
